(** * file-monitoring-system: the watch / dispatch / move / archive pipeline

    A shallow embedding of [src/file_sorter_app.py] and the properties of
    its natural-language specification.

    Layout of the development:
    - [PyStr], [AsciiStr], [Unicode], [PosixPath], [PyTime]: the parts of
      the Python runtime the program calls ([str.lower], [repr],
      [str.rfind], slicing, [os.path.join], [os.path.basename],
      [os.path.splitext], [strftime]), written after CPython's
      [posixpath.py] / [genericpath.py];
    - exceptions, the log and a small state-and-exception monad;
    - [FileSystem]: the interface of the platform primitives the program
      uses ([os.path.exists], [os.makedirs], [shutil.copy2],
      [shutil.move], the start of a watchdog emitter); the program is
      written once against the interface;
    - [Core]: [archive_file], [get_unique_filename], [move_file],
      [WatcherHandler.on_created];
    - [Gui]: [FileSorterApp] with its buttons and the watchdog observers;
    - [MemFS]: an in-memory instance of [FileSystem]; [ModeFS]: the same
      with the write permission of regular files;
    - [Scenario]: the scenarios of the specification as concrete states;
    - the properties: strings and paths, the date partition, the collision
      law, the dispatch, the archive, directory preparation, the watch
      lifecycle.

    Modelling conventions.  A [str] is held as the bytes of its UTF-8
    encoding: searching for [/] and [.] and slicing at what was found give
    the same substrings as on code points.  The two methods that consult
    the Unicode database, [str.lower] and [repr], are the members of the
    class [Unicode]; the program is written for every implementation of
    them that is right on ASCII text, and the concrete scenarios, which are
    ASCII, are evaluated with [AsciiStr].  A path is identified with its
    string: the in-memory filesystems do not resolve [.], [..], repeated
    separators or symbolic links.  Every exception of the model is an
    instance of [Exception] (the [OSError] family, [shutil.Error],
    [RuntimeError]), so [except Exception] catches all of them.  Calls to
    [logging] do not fail. *)

From Stdlib Require Import ZArith Ascii String.
From stdpp Require Import base gmap strings list pretty.

(** ** Python strings *)

Module PyStr.

(** [str.isascii]: every byte is below 128. *)
Fixpoint isascii (s : string) : bool :=
  match s with
  | "" => true
  | String c s' => (N_of_ascii c <? 128)%N && isascii s'
  end.

Fixpoint take (n : nat) (s : string) : string :=
  match n, s with
  | S n', String c s' => String c (take n' s')
  | _, _ => ""
  end.

Fixpoint drop (n : nat) (s : string) : string :=
  match n, s with
  | S n', String _ s' => drop n' s'
  | _, _ => s
  end.

(** [s[i:j]] for [0 <= i]; [s[:j]] is [slice s 0 j] and [s[i:]] is
    [from s i]. *)
Definition slice (s : string) (i j : Z) : string :=
  take (Z.to_nat (j - i)) (drop (Z.to_nat i) s).
Definition upto (s : string) (j : Z) : string := take (Z.to_nat j) s.
Definition from (s : string) (i : Z) : string := drop (Z.to_nat i) s.

(** [s.rfind(c)] for a one-character [c]: the highest index of [c] in
    [s], or [-1].  [rfind_from c s i] searches [s] seen as the suffix
    that starts at index [i]. *)
Fixpoint rfind_from (c : ascii) (s : string) (i : Z) : Z :=
  match s with
  | "" => (-1)%Z
  | String a s' =>
      let r := rfind_from c s' (i + 1)%Z in
      if (0 <=? r)%Z then r else if Ascii.eqb a c then i else (-1)%Z
  end.
Definition rfind (s : string) (c : ascii) : Z := rfind_from c s 0%Z.

Definition startswith (s : string) (c : ascii) : bool :=
  match s with
  | String a _ => Ascii.eqb a c
  | "" => false
  end.

Fixpoint endswith (s : string) (c : ascii) : bool :=
  match s with
  | "" => false
  | String a "" => Ascii.eqb a c
  | String _ s' => endswith s' c
  end.

(** [c * len(s) == s]: every character of [s] is [c]. *)
Fixpoint all_char (c : ascii) (s : string) : bool :=
  match s with
  | "" => true
  | String a s' => Ascii.eqb a c && all_char c s'
  end.

(** [s.rstrip(c)]. *)
Fixpoint rstrip (s : string) (c : ascii) : string :=
  match s with
  | "" => ""
  | String a s' => if all_char c s then "" else String a (rstrip s' c)
  end.

(** [c in s]. *)
Fixpoint contains (s : string) (c : ascii) : bool :=
  match s with
  | "" => false
  | String a s' => Ascii.eqb a c || contains s' c
  end.

(** [s.zfill(width)] for a string of digits. *)
Definition zfill (width : nat) (s : string) : string :=
  Nat.iter (width - String.length s) (String "0") s.

(** Truthiness of a string: [bool(s)]. *)
Definition truthy (s : string) : bool :=
  match s with "" => false | _ => true end.

End PyStr.

(** ** [str.lower] and [repr] on ASCII text *)

Module AsciiStr.
Import PyStr.

(** [str.lower] on one ASCII character: [A-Z] is folded. *)
Definition lower_char (c : ascii) : ascii :=
  let n := N_of_ascii c in
  if ((65 <=? n) && (n <=? 90))%N then ascii_of_N (n + 32) else c.

Fixpoint lower (s : string) : string :=
  match s with
  | "" => ""
  | String c s' => String (lower_char c) (lower s')
  end.

Definition quote : ascii := "'".
Definition dquote : ascii := "034".
Definition backslash : ascii := "092".

Definition hex_digit (n : N) : ascii :=
  if (n <? 10)%N then ascii_of_N (48 + n) else ascii_of_N (87 + n).

(** One character of [repr(s)] between the quotes [q] (CPython's
    [unicode_repr]): the quote and the backslash are escaped, so are the
    control characters; every other character stands for itself. *)
Definition repr_char (q c : ascii) : string :=
  let n := N_of_ascii c in
  if Ascii.eqb c q || Ascii.eqb c backslash then String backslash (String c "")
  else if (n =? 9)%N then String backslash "t"
  else if (n =? 10)%N then String backslash "n"
  else if (n =? 13)%N then String backslash "r"
  else if (n <? 32)%N || (n =? 127)%N then
    String backslash
      (String "x" (String (hex_digit (n / 16)) (String (hex_digit (n mod 16)) "")))
  else String c "".

Fixpoint repr_body (q : ascii) (s : string) : string :=
  match s with
  | "" => ""
  | String c s' => repr_char q c +:+ repr_body q s'
  end.

(** [repr(s)]: single quotes, unless [s] holds a single quote and no
    double quote. *)
Definition repr (s : string) : string :=
  let q := if contains s quote && negb (contains s dquote) then dquote else quote in
  String q (repr_body q s +:+ String q "").

End AsciiStr.

(** ** The methods of [str] that consult the Unicode database *)

(** [str.lower] and [repr]: on ASCII text they are the functions of
    [AsciiStr]; lowercasing a lowercased string changes nothing. *)
Class Unicode := {
  lower : string → string;
  repr : string → string;
  lower_isascii s : PyStr.isascii s = true → lower s = AsciiStr.lower s;
  lower_lower s : lower (lower s) = lower s;
  repr_isascii s : PyStr.isascii s = true → repr s = AsciiStr.repr s;
}.

(** The implementation the concrete scenarios are evaluated with. *)
Definition ascii_text : Unicode.
Proof.
  refine {| lower := AsciiStr.lower; repr := AsciiStr.repr |}.
  - reflexivity.
  - intros s. induction s as [|c s IH]; [reflexivity|]. simpl. f_equal; [|exact IH].
    destruct c as [[] [] [] [] [] [] [] []]; reflexivity.
  - reflexivity.
Defined.

(** ** [os.path] on POSIX *)

Module PosixPath.
Import PyStr.

Definition sep : ascii := "/".
Definition extsep : ascii := ".".

(** [os.path.join(a, b)] *)
Definition join (a b : string) : string :=
  if startswith b sep then b
  else if negb (truthy a) || endswith a sep then a +:+ b
  else a +:+ String sep b.

(** [os.path.basename(p)] *)
Definition basename (p : string) : string :=
  let i := (rfind p sep + 1)%Z in
  from p i.

(** [os.path.dirname(p)] *)
Definition dirname (p : string) : string :=
  let i := (rfind p sep + 1)%Z in
  let head := upto p i in
  if truthy head && negb (all_char sep head) then rstrip head sep else head.

(** The [while filenameIndex < dotIndex] loop of [genericpath._splitext]
    (skip all leading dots).  It runs at most [dotIndex - filenameIndex]
    times, which is what [fuel] counts; leaving the loop without a
    [return] falls through to [return p, p[:0]]. *)
Fixpoint splitext_scan (fuel : nat) (p : string) (filenameIndex dotIndex : Z)
  : string * string :=
  match fuel with
  | O => (p, "")
  | S fuel' =>
      if (filenameIndex <? dotIndex)%Z then
        if negb (String.eqb (slice p filenameIndex (filenameIndex + 1))
                            (String extsep ""))
        then (upto p dotIndex, from p dotIndex)
        else splitext_scan fuel' p (filenameIndex + 1)%Z dotIndex
      else (p, "")
  end.

(** [os.path.splitext(p)], that is [genericpath._splitext(p, '/', None, '.')] *)
Definition splitext (p : string) : string * string :=
  let sepIndex := rfind p sep in
  let dotIndex := rfind p extsep in
  if (sepIndex <? dotIndex)%Z then
    splitext_scan (Z.to_nat (dotIndex - sepIndex)) p (sepIndex + 1)%Z dotIndex
  else (p, "").

End PosixPath.

(** ** [datetime.now().strftime("%Y-%m-%d")] *)

Module PyTime.

Record datetime := mk_datetime { year : N; month : N; day : N }.

Definition strftime_Y_m_d (d : datetime) : string :=
  PyStr.zfill 4 (pretty (year d)) +:+ "-" +:+
  PyStr.zfill 2 (pretty (month d)) +:+ "-" +:+
  PyStr.zfill 2 (pretty (day d)).

(** The range of [datetime] values. *)
Definition valid (d : datetime) : Prop :=
  (1 ≤ year d ≤ 9999 ∧ 1 ≤ month d ≤ 12 ∧ 1 ≤ day d ≤ 31)%N.

Definition is_digit (c : ascii) : bool :=
  let n := N_of_ascii c in ((48 <=? n) && (n <=? 57))%N.

Definition four_digits (s : string) : bool :=
match s with
| String a (String b (String c (String d ""))) =>
    is_digit a && is_digit b && is_digit c && is_digit d
| _ => false
end.

Definition two_digits (s : string) : bool :=
match s with
| String a (String b "") => is_digit a && is_digit b
| _ => false
end.

(** The shape [YYYY-MM-DD]. *)
Definition is_Y_m_d (s : string) : bool :=
  match s with
  | String y1 (String y2 (String y3 (String y4 (String d1
      (String m1 (String m2 (String d2 (String a1 (String a2 "")))))))))
    => is_digit y1 && is_digit y2 && is_digit y3 && is_digit y4
       && Ascii.eqb d1 "-" && is_digit m1 && is_digit m2
       && Ascii.eqb d2 "-" && is_digit a1 && is_digit a2
  | _ => false
  end.



End PyTime.

(** ** Exceptions, log records, and the monad of effects *)

Record PyException := mk_exception { exc_class : string; exc_str : string }.

(** [str(e)] of an [OSError] raised with a file name:
    ["[Errno {errno}] {strerror}: {filename!r}"]. *)
Definition OSError `{!Unicode} (name : string) (errno : N) (strerror filename : string)
  : PyException :=
  mk_exception name
    ("[Errno " +:+ pretty errno +:+ "] " +:+ strerror +:+ ": " +:+ repr filename).

Definition FileNotFoundError `{!Unicode} (path : string) : PyException :=
  OSError "FileNotFoundError" 2 "No such file or directory" path.
Definition PermissionError `{!Unicode} (path : string) : PyException :=
  OSError "PermissionError" 13 "Permission denied" path.
Definition FileExistsError `{!Unicode} (path : string) : PyException :=
  OSError "FileExistsError" 17 "File exists" path.
Definition NotADirectoryError `{!Unicode} (path : string) : PyException :=
  OSError "NotADirectoryError" 20 "Not a directory" path.
Definition IsADirectoryError `{!Unicode} (path : string) : PyException :=
  OSError "IsADirectoryError" 21 "Is a directory" path.
(** [shutil.SameFileError] *)
Definition SameFileError `{!Unicode} (src dst : string) : PyException :=
  mk_exception "SameFileError"
    (repr src +:+ " and " +:+ repr dst +:+ " are the same file").
Definition RecursionError : PyException :=
  mk_exception "RecursionError" "maximum recursion depth exceeded".
(** [shutil.Error] *)
Definition ShutilError (msg : string) : PyException := mk_exception "Error" msg.
Definition TypeError (msg : string) : PyException := mk_exception "TypeError" msg.
Definition RuntimeError (msg : string) : PyException := mk_exception "RuntimeError" msg.

Inductive level := INFO | WARNING | ERROR.

(** What a run leaves behind for an observer of the program: the records
    handed to [logging], and one [Call] mark per entry into a function of
    the program that the specification speaks about ([archive_file]). *)
Inductive event :=
| Log (lvl : level) (msg : string)
| Call (function : string) (args : list string).

(** The result of running a piece of the program from a state [Σ]: it
    returns a value, it raises, or (a [while] loop that exhausts its fuel)
    it does not terminate. *)
Inductive outcome (Σ A : Type) :=
| Returned (a : A) (σ : Σ)
| Raised (e : PyException) (σ : Σ)
| Diverged.
Arguments Returned {Σ A} a σ.
Arguments Raised {Σ A} e σ.
Arguments Diverged {Σ A}.

Definition M (Σ A : Type) : Type := Σ → outcome Σ A.

Definition ret {Σ A} (a : A) : M Σ A := λ σ, Returned a σ.

Definition bind {Σ A B} (m : M Σ A) (k : A → M Σ B) : M Σ B :=
  λ σ, match m σ with
       | Returned a σ' => k a σ'
       | Raised e σ' => Raised e σ'
       | Diverged => Diverged
       end.

Definition raise {Σ A} (e : PyException) : M Σ A := λ σ, Raised e σ.

(** [try: body  except Exception as e: handler(e)] *)
Definition try_except {Σ A} (body : M Σ A) (handler : PyException → M Σ A) : M Σ A :=
  λ σ, match body σ with
       | Returned a σ' => Returned a σ'
       | Raised e σ' => handler e σ'
       | Diverged => Diverged
       end.

Definition gets {Σ A} (f : Σ → A) : M Σ A := λ σ, Returned (f σ) σ.
Definition modify {Σ} (f : Σ → Σ) : M Σ unit := λ σ, Returned tt (f σ).

(** A loop given as a function with fuel: [None] is non-termination. *)
Definition terminating {Σ A} (f : Σ → option A) : M Σ A :=
  λ σ, match f σ with
       | Some a => Returned a σ
       | None => Diverged
       end.

#[global] Instance M_ret {Σ} : MRet (M Σ) := λ A a, ret a.
#[global] Instance M_bind {Σ} : MBind (M Σ) := λ A B k m, bind m k.

Notation "'try' body 'except' e '=>' handler" := (try_except body (λ e, handler))
  (at level 10, body at level 200, e name, handler at level 200, only parsing)
  : stdpp_scope.

Definition outcome_state {Σ A} (o : outcome Σ A) : option Σ :=
  match o with
  | Returned _ σ | Raised _ σ => Some σ
  | Diverged => None
  end.

Definition outcome_exception {Σ A} (o : outcome Σ A) : option PyException :=
  match o with
  | Raised e _ => Some e
  | _ => None
  end.

(** ** The filesystem interface *)

(** The primitives of the platform the program calls on a filesystem
    state [F], directly or through watchdog.  [existing s] is the set of paths for which
    [os.path.exists] answers [True]; a primitive returns the state it
    leaves behind and the exception it raised, if any (a failing primitive
    may have changed the state). *)
Class FileSystem (F : Type) := {
  existing : F → gset string;
  (** [os.makedirs(path, exist_ok=True)] *)
  os_makedirs : string → F → F * option PyException;
  (** [shutil.copy2(src, dst)] *)
  shutil_copy2 : string → string → F → F * option PyException;
  (** [shutil.move(src, dst)] *)
  shutil_move : string → string → F → F * option PyException;
  (** What the start of a watchdog emitter on [path] raises, if it
      raises: the platform cannot watch a directory that is not there. *)
  emitter_start : string → F → option PyException;
}.

(** The state the core of the program runs in. *)
Record World (F : Type) := mk_world {
  fs : F;
  clock : PyTime.datetime;
  trace : list event;
}.
Arguments mk_world {F} fs clock trace.
Arguments fs {F} w.
Arguments clock {F} w.
Arguments trace {F} w.

Definition set_fs {F} (s : F) (w : World F) : World F :=
  mk_world s (clock w) (trace w).
Definition emit {F} (ev : event) (w : World F) : World F :=
  mk_world (fs w) (clock w) (trace w ++ [ev]).

(** The [Call] marks of a trace for one function. *)
Definition calls_of (function : string) (tr : list event) : list (list string) :=
  omap (λ ev, match ev with
              | Call f args => if String.eqb f function then Some args else None
              | Log _ _ => None
              end) tr.

Definition logged (tr : list event) : list (level * string) :=
  omap (λ ev, match ev with Log l m => Some (l, m) | Call _ _ => None end) tr.

Module Core.
Import PyStr PosixPath PyTime.

Section program.
Context {F : Type} `{!Unicode, !FileSystem F}.

Definition logging (lvl : level) (msg : string) : M (World F) unit :=
  modify (emit (Log lvl msg)).
Definition enter (function : string) (args : list string) : M (World F) unit :=
  modify (emit (Call function args)).

(** Running a primitive of the interface on the world's filesystem. *)
Definition primitive (op : F → F * option PyException) : M (World F) unit :=
  λ w, match op (fs w) with
       | (s, None) => Returned tt (set_fs s w)
       | (s, Some e) => Raised e (set_fs s w)
       end.

Definition os_path_exists (s : F) (path : string) : bool :=
  bool_decide (path ∈ existing s).

Definition datetime_now : M (World F) datetime := gets clock.

(** [archive_file(dest_path, archive_dir)] *)
Definition archive_file (dest_path archive_dir : string) : M (World F) unit :=
  enter "archive_file" [dest_path; archive_dir] ;;
  now ← datetime_now ;
  let date_folder := strftime_Y_m_d now in
  let archive_path := join archive_dir date_folder in
  primitive (os_makedirs archive_path) ;;
  try
    (primitive (shutil_copy2 dest_path archive_path) ;;
     logging INFO ("Archived " +:+ dest_path +:+ " to " +:+ archive_path))
  except e =>
    logging ERROR ("Error archiving file: " +:+ exc_str e).

(** The candidate the loop of [get_unique_filename] builds for a
    counter: [os.path.join(dest_dir, f"{base_name} {counter}{ext}")]. *)
Definition candidate (dest_dir base_name ext : string) (counter : nat) : string :=
  join dest_dir (base_name +:+ " " +:+ pretty counter +:+ ext).

(** The [while os.path.exists(dest_path)] loop, on the loop state
    [(counter, dest_path)]. *)
Fixpoint unique_loop (fuel : nat) (s : F) (dest_dir base_name ext : string)
    (counter : nat) (dest_path : string) : option string :=
  if os_path_exists s dest_path then
    match fuel with
    | O => None
    | S fuel' =>
        unique_loop fuel' s dest_dir base_name ext (S counter)
          (candidate dest_dir base_name ext counter)
    end
  else Some dest_path.

(** [get_unique_filename(dest_dir, filename)], a read-only probe of the
    filesystem.  The fuel is one more than the number of existing
    paths, which the loop cannot exhaust
    ([get_unique_filename_terminates]). *)
Definition get_unique_filename (dest_dir filename : string) (s : F)
  : option string :=
  let '(base_name, ext) := splitext filename in
  let counter := 1 in
  let dest_path := join dest_dir filename in
  unique_loop (S (size (existing s))) s dest_dir base_name ext counter dest_path.

(** [move_file(src_path, base_dir, ext_map, sorted_dir_name, archive_dir_name)] *)
Definition move_file (src_path base_dir : string) (ext_map : gmap string string)
    (sorted_dir_name archive_dir_name : string) : M (World F) unit :=
  let sorted_dir := join base_dir sorted_dir_name in
  let archive_dir := join base_dir archive_dir_name in
  let ext := (splitext src_path).2 in
  let ext := lower ext in
  match ext_map !! ext with
  | Some category =>
      let dest_dir := join sorted_dir category in
      try
        (let filename := basename src_path in
         final_dest ← terminating (λ w, get_unique_filename dest_dir filename (fs w)) ;
         primitive (shutil_move src_path final_dest) ;;
         logging INFO ("Moved " +:+ src_path +:+ " to " +:+ final_dest) ;;
         archive_file final_dest archive_dir)
      except e =>
        logging ERROR ("Error moving file: " +:+ exc_str e)
  | None =>
      logging WARNING ("Unknown / unsupported file type: " +:+ src_path)
  end.

(** [WatcherHandler] and the events watchdog hands to it. *)
Record WatcherHandler := mk_handler {
  h_base_dir : string;
  h_ext_map : gmap string string;
  h_sorted_dir_name : string;
  h_archive_dir_name : string;
}.

Record FileSystemEvent := mk_fs_event {
  src_path : string;
  is_directory : bool;
}.

(** [WatcherHandler.on_created(self, event)] *)
Definition on_created (self : WatcherHandler) (ev : FileSystemEvent)
  : M (World F) unit :=
  if negb (is_directory ev) then
    logging INFO ("New file detected: " +:+ src_path ev) ;;
    move_file (src_path ev) (h_base_dir self) (h_ext_map self)
              (h_sorted_dir_name self) (h_archive_dir_name self)
  else ret tt.

(** The observer thread hands the creation events to the handler one
    after the other; an exception that leaves the handler ends the
    delivery. *)
Fixpoint deliver (self : WatcherHandler) (evs : list FileSystemEvent)
  : M (World F) unit :=
  match evs with
  | [] => ret tt
  | ev :: evs' => on_created self ev ;; deliver self evs'
  end.

End program.
End Core.

(** ** The application object and the operator's controls *)

Module Gui.
Import PyStr PosixPath PyTime Core.

Inductive tk_state := NORMAL | DISABLED.

(** The parsed [config.json]. *)
Record Config := mk_config {
  incoming_directory : string;
  sorted_directory : string;
  archive_directory : string;
  extensions : gmap string string;
}.

(** A watchdog [Observer]: the watches scheduled on it, whether its
    thread was ever started and whether it runs ([is_alive()]). *)
Record ObservedWatch := mk_watch {
  watch_handler : WatcherHandler;
  watch_path : string;
  watch_recursive : bool;
}.

Record Observer := mk_observer {
  watches : list ObservedWatch;
  started : bool;
  alive : bool;
}.

(** The state of the process: the world of the core, the [Observer]
    objects constructed so far (an object is named by its index, so that
    the reference [self.observer] can be overwritten while the object it
    named lives on), and the fields of the [FileSorterApp] instance. *)
Record App (F : Type) := mk_app {
  world : World F;
  heap : list Observer;
  observer : option nat;
  base_dir : option string;
  config : Config;
  dir_label : string;
  start_button : tk_state;
  stop_button : tk_state;
}.
Arguments mk_app {F} world heap observer base_dir config dir_label start_button stop_button.
Arguments world {F} a.
Arguments heap {F} a.
Arguments observer {F} a.
Arguments base_dir {F} a.
Arguments config {F} a.
Arguments dir_label {F} a.
Arguments start_button {F} a.
Arguments stop_button {F} a.

Section app.
Context {F : Type} `{!FileSystem F}.

Definition set_world (w : World F) (a : App F) : App F :=
  mk_app w (heap a) (observer a) (base_dir a) (config a) (dir_label a)
         (start_button a) (stop_button a).
Definition set_heap (h : list Observer) (a : App F) : App F :=
  mk_app (world a) h (observer a) (base_dir a) (config a) (dir_label a)
         (start_button a) (stop_button a).
Definition set_observer (o : option nat) (a : App F) : App F :=
  mk_app (world a) (heap a) o (base_dir a) (config a) (dir_label a)
         (start_button a) (stop_button a).
Definition set_base_dir (b : option string) (a : App F) : App F :=
  mk_app (world a) (heap a) (observer a) b (config a) (dir_label a)
         (start_button a) (stop_button a).
Definition set_dir_label (l : string) (a : App F) : App F :=
  mk_app (world a) (heap a) (observer a) (base_dir a) (config a) l
         (start_button a) (stop_button a).
Definition set_start_button (t : tk_state) (a : App F) : App F :=
  mk_app (world a) (heap a) (observer a) (base_dir a) (config a) (dir_label a)
         t (stop_button a).
Definition set_stop_button (t : tk_state) (a : App F) : App F :=
  mk_app (world a) (heap a) (observer a) (base_dir a) (config a) (dir_label a)
         (start_button a) t.

(** Code of the core run from a method of the application. *)
Definition in_world {A} (m : M (World F) A) : M (App F) A :=
  λ a, match m (world a) with
       | Returned x w => Returned x (set_world w a)
       | Raised e w => Raised e (set_world w a)
       | Diverged => Diverged
       end.

(** [for x in xs: body(x)] *)
Fixpoint for_each {Σ A} (xs : list A) (body : A → M Σ unit) : M Σ unit :=
  match xs with
  | [] => ret tt
  | x :: xs' => body x ;; for_each xs' body
  end.

(** [FileSorterApp.__init__]: the Tk widgets are the two button states
    and the label. *)
Definition init (CONFIG : Config) (w : World F) : App F :=
  mk_app w [] None None CONFIG "No directory selected" DISABLED DISABLED.

(** The body of [prepare_directories] for a base directory and an order
    in which the [for] loop visits [set(self.config["extensions"].values())]. *)
Definition prepare_directories_in (base : string) (cfg : Config)
    (folder_names : list string) : M (World F) unit :=
  let incoming := join base (incoming_directory cfg) in
  let sorted_dir := join base (sorted_directory cfg) in
  let archive_dir := join base (archive_directory cfg) in
  primitive (os_makedirs incoming) ;;
  primitive (os_makedirs sorted_dir) ;;
  primitive (os_makedirs archive_dir) ;;
  for_each folder_names
    (λ folder_name, primitive (os_makedirs (join sorted_dir folder_name))).

(** The distinct category names, in the order the set is iterated. *)
Definition category_folders (cfg : Config) : list string :=
  elements (map_img (extensions cfg) : gset string).

(** [FileSorterApp.prepare_directories(self)]; [os.path.join(None, ...)]
    is a [TypeError]. *)
Definition prepare_directories : M (App F) unit :=
  a ← gets id ;
  match base_dir a with
  | Some base =>
      in_world (prepare_directories_in base (config a) (category_folders (config a)))
  | None => raise (TypeError "expected str, bytes or os.PathLike object, not NoneType")
  end.

(** [FileSorterApp.select_directory(self)], for the answer [chosen_dir]
    of the directory dialog (the empty string when it is dismissed). *)
Definition select_directory (chosen_dir : string) : M (App F) unit :=
  if truthy chosen_dir then
    modify (set_base_dir (Some chosen_dir)) ;;
    modify (set_dir_label chosen_dir) ;;
    prepare_directories ;;
    modify (set_start_button NORMAL)
  else ret tt.

(** [Observer()]: a new object, its thread not started. *)
Definition Observer_new : M (App F) nat :=
  a ← gets id ;
  modify (set_heap (heap a ++ [mk_observer [] false false])) ;;
  ret (length (heap a)).

(** [observer.schedule(event_handler, path=..., recursive=...)] on an
    observer that does not run yet: the watch is recorded, its emitter is
    started by [start()]. *)
Definition Observer_schedule (o : nat) (h : WatcherHandler) (path : string)
    (recursive : bool) : M (App F) unit :=
  a ← gets id ;
  modify (set_heap (alter (λ ob, mk_observer (watches ob ++ [mk_watch h path recursive])
                                              (started ob) (alive ob)) o (heap a))).

(** [observer.start()]: the emitter of each watch is started in the
    calling thread, and an exception of one of them leaves [start()]
    before the thread of the observer is started; a thread is started
    once only. *)
Definition Observer_start (o : nat) : M (App F) unit :=
  a ← gets id ;
  match heap a !! o with
  | Some ob =>
      for_each (watches ob) (λ wch,
        match emitter_start (watch_path wch) (fs (world a)) with
        | Some e => raise e
        | None => ret tt
        end) ;;
      if started ob then raise (RuntimeError "threads can only be started once")
      else modify (set_heap (alter (λ ob, mk_observer (watches ob) true true) o (heap a)))
  | None => ret tt
  end.

(** [observer.stop()]: the thread is told to end and every watch is
    unscheduled ([on_thread_stop]). *)
Definition Observer_stop (o : nat) : M (App F) unit :=
  a ← gets id ;
  modify (set_heap (alter (λ ob, mk_observer [] (started ob) (alive ob)) o (heap a))).

(** [observer.join()]: waits for the end of the thread; joining a thread
    that was never started is a [RuntimeError]. *)
Definition Observer_join (o : nat) : M (App F) unit :=
  a ← gets id ;
  match heap a !! o with
  | Some ob =>
      if started ob then
        modify (set_heap (alter (λ ob, mk_observer (watches ob) true false) o (heap a)))
      else raise (RuntimeError "cannot join thread before it is started")
  | None => ret tt
  end.

(** [bool(self.base_dir)] *)
Definition base_dir_truthy (b : option string) : bool :=
  match b with
  | Some d => truthy d
  | None => false
  end.

(** [FileSorterApp.start_monitoring(self)].  The daemon thread of
    [run_observer] only sleeps while the observer is alive and has no
    effect on the state; an exception of [observer.start()] leaves the
    method after [self.observer] was assigned and before the buttons
    change. *)
Definition start_monitoring : M (App F) unit :=
  a ← gets id ;
  if negb (base_dir_truthy (base_dir a)) then
    in_world (logging WARNING "No base directory selected. Cannot start monitoring.")
  else
    let base := default "" (base_dir a) in
    let incoming := join base (incoming_directory (config a)) in
    let event_handler :=
      mk_handler base (extensions (config a)) (sorted_directory (config a))
                 (archive_directory (config a)) in
    o ← Observer_new ;
    modify (set_observer (Some o)) ;;
    Observer_schedule o event_handler incoming false ;;
    Observer_start o ;;
    modify (set_start_button DISABLED) ;;
    modify (set_stop_button NORMAL).

(** [FileSorterApp.stop_monitoring(self)] *)
Definition stop_monitoring : M (App F) unit :=
  a ← gets id ;
  match observer a with
  | Some o => Observer_stop o ;; Observer_join o ;; modify (set_observer None)
  | None => ret tt
  end ;;
  modify (set_start_button NORMAL) ;;
  modify (set_stop_button DISABLED).

(** The operator's controls.  Tk runs the command of a button only while
    the button is not disabled; the directory button is never disabled. *)
Inductive control :=
| SelectDirectory (chosen_dir : string)
| StartMonitoring
| StopMonitoring.

Definition press (button : App F → tk_state) (command : M (App F) unit)
  : M (App F) unit :=
  a ← gets id ;
  match button a with
  | NORMAL => command
  | DISABLED => ret tt
  end.

Definition operate (c : control) : M (App F) unit :=
  match c with
  | SelectDirectory chosen_dir => select_directory chosen_dir
  | StartMonitoring => press start_button start_monitoring
  | StopMonitoring => press stop_button stop_monitoring
  end.

(** [root.mainloop()] on a sequence of controls: an exception that leaves
    a callback is reported by Tk and the loop goes on. *)
Fixpoint mainloop (cs : list control) (a : App F) : option (App F) :=
  match cs with
  | [] => Some a
  | c :: cs' =>
      match outcome_state (operate c a) with
      | Some a' => mainloop cs' a'
      | None => None
      end
  end.

(** The observers whose threads run. *)
Definition running (a : App F) : list nat :=
  filter (λ i, alive <$> heap a !! i = Some true) (seq 0 (length (heap a))).

(** The two states of the watch lifecycle, as the application sees them. *)
Inductive lifecycle := Stopped | Running.
Definition lifecycle_of (a : App F) : lifecycle :=
  match observer a with
  | Some _ => Running
  | None => Stopped
  end.

End app.
End Gui.

(** ** An in-memory filesystem *)

Module MemFS.
Import PyStr PosixPath.

(** A regular file with its content and modification time, or a directory. *)
Inductive node :=
| File (data : string) (mtime : Z)
| Dir.

Abbreviation state := (gmap string node).

Definition isdir (s : state) (path : string) : bool :=
  match s !! path with
  | Some Dir => true
  | _ => false
  end.

(** The directory an entry is created in exists: the current directory
    and the root always do. *)
Definition parent_ok (s : state) (path : string) : bool :=
  let head := dirname path in
  all_char sep head || isdir s head.

Section Unicode_text.
Context `{!Unicode}.

(** [os.makedirs(name, exist_ok=True)]: the missing ancestors of [name]
    and [name] itself become directories; an existing directory is left
    alone and a regular file in the way is an error.  [fuel] bounds the
    recursion on [dirname], which shortens the path; the length of the
    path is enough ([makedirs_terminates]). *)
Fixpoint makedirs_go (fuel : nat) (name : string) (s : state)
  : state * option PyException :=
  match s !! name with
  | Some Dir => (s, None)
  | Some (File _ _) => (s, Some (FileExistsError name))
  | None =>
      let head := dirname name in
      if all_char sep head then (<[name := Dir]> s, None)
      else
        match s !! head with
        | Some Dir => (<[name := Dir]> s, None)
        | Some (File _ _) => (s, Some (NotADirectoryError name))
        | None =>
            match fuel with
            | O => (s, Some RecursionError)
            | S fuel' =>
                match makedirs_go fuel' head s with
                | (s', None) => (<[name := Dir]> s', None)
                | (s', Some e) => (s', Some e)
                end
            end
        end
  end.

Definition makedirs (name : string) (s : state) : state * option PyException :=
  makedirs_go (String.length name) name s.

(** Whether a regular file stands where a directory is needed on the
    way to [path]: the nearest ancestor that exists is a regular file.
    [fuel] bounds the walk along [dirname] as for [makedirs_go]. *)
Fixpoint under_file (fuel : nat) (s : state) (path : string) : bool :=
  let head := dirname path in
  if all_char sep head then false
  else
    match s !! head with
    | Some (File _ _) => true
    | Some Dir => false
    | None =>
        match fuel with
        | O => false
        | S fuel' => under_file fuel' s head
        end
    end.

(** The error of a system call on a [path] that cannot be reached:
    [ENOTDIR] under a regular file, [ENOENT] otherwise. *)
Definition missing (path : string) (s : state) : PyException :=
  if under_file (String.length path) s path then NotADirectoryError path
  else FileNotFoundError path.

(** [shutil.copy2(src, dst)]: into [dst] when it is a directory, over
    [dst] otherwise; the content and the modification time of a regular
    file are copied and an existing regular file is overwritten.  The
    test for the same file comes before anything is opened. *)
Definition copy2 (src dst : string) (s : state) : state * option PyException :=
  let dst := if isdir s dst then join dst (basename src) else dst in
  if bool_decide (src ∈ dom s) && String.eqb src dst then
    (s, Some (SameFileError src dst))
  else
    match s !! src with
    | Some (File data mtime) =>
        if isdir s dst then (s, Some (IsADirectoryError dst))
        else if negb (parent_ok s dst) then (s, Some (missing dst s))
        else (<[dst := File data mtime]> s, None)
    | Some Dir => (s, Some (IsADirectoryError src))
    | None => (s, Some (missing src s))
    end.

(** [shutil._basename(path)] *)
Definition _basename (path : string) : string := basename (rstrip path sep).

(** [shutil._destinsrc(src, dst)] *)
Definition _destinsrc (src dst : string) : bool :=
  let src := if endswith src sep then src else src +:+ String sep "" in
  let dst := if endswith dst sep then dst else dst +:+ String sep "" in
  String.prefix src dst.

(** The path an entry [k] has once the directory [src] is called [dst]. *)
Definition relocate (src dst k : string) : string :=
  if String.eqb k src then dst
  else if String.prefix (src +:+ String sep "") k then dst +:+ drop (String.length src) k
  else k.

(** [os.rename(src, dst)] of a directory onto a free path: the directory
    and everything under it change their paths. *)
Definition rename_tree (src dst : string) (s : state) : state :=
  list_to_map (prod_map (relocate src dst) id <$> map_to_list s).

(** [shutil.move(src, dst)]: into [dst] when it is a directory (an error
    if the name is taken there), onto [dst] otherwise.  The move is an
    [os.rename]; where that fails, a regular file is copied with [copy2]
    and a directory with [copytree], which also creates the directories
    that lead to the destination. *)
Definition move (src dst : string) (s : state) : state * option PyException :=
  let real_dst := if isdir s dst then join dst (_basename src) else dst in
  if isdir s dst && String.eqb src dst then (s, None)
  else if isdir s dst && bool_decide (real_dst ∈ dom s) then
    (s, Some (ShutilError ("Destination path '" +:+ real_dst +:+ "' already exists")))
  else
    match s !! src with
    | Some (File data mtime) =>
        if parent_ok s real_dst then (<[real_dst := File data mtime]> (delete src s), None)
        else (s, Some (missing real_dst s))
    | Some Dir =>
        if parent_ok s real_dst && negb (bool_decide (real_dst ∈ dom s))
           && negb (_destinsrc src real_dst)
        then (rename_tree src real_dst s, None)
        else if _destinsrc src dst then
          (s, Some (ShutilError ("Cannot move a directory '" +:+ src +:+
                                 "' into itself '" +:+ dst +:+ "'.")))
        else if bool_decide (real_dst ∈ dom s) then (s, Some (FileExistsError real_dst))
        else
          match makedirs real_dst s with
          | (s', None) => (rename_tree src real_dst s', None)
          | (s', Some e) => (s', Some e)
          end
    | None => (s, Some (missing src s))
    end.

(** The start of an emitter on [path]: the platform watches a directory
    that exists.  The text of the exception depends on the platform and on
    the version of watchdog; no property reads it. *)
Definition watch (path : string) (s : state) : option PyException :=
  match s !! path with
  | Some Dir => None
  | Some (File _ _) => Some (mk_exception "NotADirectoryError" "[Errno 20] Not a directory")
  | None => Some (mk_exception "FileNotFoundError" "[Errno 2] No such file or directory")
  end.

End Unicode_text.

#[global] Instance memfs `{!Unicode} : FileSystem state := {
  existing s := dom s;
  os_makedirs := makedirs;
  shutil_copy2 := copy2;
  shutil_move := move;
  emitter_start := watch;
}.

End MemFS.

(** ** The in-memory filesystem with permission bits *)

Module ModeFS.
Import PyStr PosixPath MemFS.

(** A tree of [MemFS] and the regular files whose permission bits allow
    no writing.  The files belong to the user of the process, which is not
    privileged: it cannot open such a file for writing. *)
Record state := mk_state {
  tree : MemFS.state;
  read_only : gset string;
}.

(** The permission bits of [src] given to [dst] ([shutil.copystat]). *)
Definition copystat (src dst : string) (ro : gset string) : gset string :=
  if bool_decide (src ∈ ro) then ro ∪ {[dst]} else ro ∖ {[dst]}.

Section Unicode_text.
Context `{!Unicode}.

(** [os.makedirs(name, exist_ok=True)] *)
Definition makedirs (name : string) (s : state) : state * option PyException :=
  let (t, o) := MemFS.makedirs name (tree s) in (mk_state t (read_only s), o).

(** [shutil.copy2(src, dst)]: as on [MemFS], but a regular file without
    write permission cannot be overwritten, and the copy gets the
    permission bits of the source. *)
Definition copy2 (src dst : string) (s : state) : state * option PyException :=
  let target := if isdir (tree s) dst then join dst (basename src) else dst in
  match MemFS.copy2 src dst (tree s) with
  | (t, None) =>
      if bool_decide (target ∈ dom (tree s)) && bool_decide (target ∈ read_only s)
      then (s, Some (PermissionError target))
      else (mk_state t (copystat src target (read_only s)), None)
  | (t, Some e) => (mk_state t (read_only s), Some e)
  end.

(** [shutil.move(src, dst)]: as on [MemFS]; the permission bits go with
    the entries that are renamed. *)
Definition move (src dst : string) (s : state) : state * option PyException :=
  let real_dst := if isdir (tree s) dst then join dst (_basename src) else dst in
  match MemFS.move src dst (tree s) with
  | (t, None) =>
      (mk_state t
         (if String.eqb src real_dst || isdir (tree s) dst && String.eqb src dst
          then read_only s
          else set_map (relocate src real_dst) (read_only s ∖ {[real_dst]})), None)
  | (t, Some e) => (mk_state t (read_only s), Some e)
  end.

End Unicode_text.

#[global] Instance modefs `{!Unicode} : FileSystem state := {
  existing s := dom (tree s);
  os_makedirs := makedirs;
  shutil_copy2 := copy2;
  shutil_move := move;
  emitter_start path s := watch path (tree s);
}.

End ModeFS.

(** The directories [prepare_directories] asks for, as a property of a
    filesystem state. *)
Definition prepared (base : string) (cfg : Gui.Config) (folder_names : list string)
    (s : MemFS.state) : Prop :=
  MemFS.isdir s (PosixPath.join base (Gui.incoming_directory cfg)) = true ∧
  MemFS.isdir s (PosixPath.join base (Gui.sorted_directory cfg)) = true ∧
  MemFS.isdir s (PosixPath.join base (Gui.archive_directory cfg)) = true ∧
  ∀ folder_name, folder_name ∈ folder_names →
    MemFS.isdir s (PosixPath.join (PosixPath.join base (Gui.sorted_directory cfg))
                     folder_name) = true.

(** ** The scenarios of the specification, as concrete states *)

Module Scenario.
Import PyTime Core Gui MemFS.

Definition today : datetime := mk_datetime 2026 11 3.

(** [{"incoming_directory":"in","sorted_directory":"sorted",
     "archive_directory":"archive","extensions":{".jpg":"images"}}] *)
Definition CONFIG : Config :=
  mk_config "in" "sorted" "archive" {[ ".jpg" := "images" ]}.

(** The folder tree under [/base] once the directory has been selected. *)
Definition prepared_tree : state :=
  list_to_map [("/base", Dir); ("/base/in", Dir); ("/base/sorted", Dir);
               ("/base/sorted/images", Dir); ("/base/archive", Dir)].

(** [photo.jpg] and [notes.txt] have just been created in [in/]. *)
Definition incoming_tree : state :=
  <["/base/in/photo.jpg" := File "JFIF" 1700000000]>
    (<["/base/in/notes.txt" := File "to do" 1700000001]> prepared_tree).

Definition w_incoming : World state := mk_world incoming_tree today [].

(** [photo.jpg] has been moved to its category. *)
Definition moved_tree : state :=
  <["/base/sorted/images/photo.jpg" := File "JFIF" 1700000000]>
    (delete "/base/in/photo.jpg" incoming_tree).

Definition w_moved : World state := mk_world moved_tree today [].

(** The archive root is a regular file, so that the date partition
    cannot be created. *)
Definition blocked_tree : state := <["/base/archive" := File "" 0]> incoming_tree.

Definition w_blocked : World state := mk_world blocked_tree today [].

(** A destination directory that holds [report.txt] and [report 1.txt]. *)
Definition reports : state :=
  list_to_map [("d", Dir); ("d/report.txt", File "first" 1);
               ("d/report 1.txt", File "second" 2)].

(** The application right after [FileSorterApp(root)], on an empty disk. *)
Definition app0 : App state := init CONFIG (mk_world ∅ today []).

(** The same with a base directory recorded and nothing prepared yet. *)
Definition app_selected : App state := set_base_dir (Some "/base") app0.

End Scenario.

(** ** Notions the further properties are stated with *)

Module Notions.
Import PyStr PosixPath PyTime Core Gui MemFS.

(** The extension as a function of the final component of a path. *)
Definition component_ext (c : string) : string :=
  let dotIndex := rfind c extsep in
  if (dotIndex <? 0)%Z then ""
  else if all_char extsep (upto c dotIndex) then "" else from c dotIndex.

(** The archive copy a dispatch makes, if it gets that far. *)
Definition archive_target_of {F} `{!Unicode, !FileSystem F} (src_path base_dir : string)
    (ext_map : gmap string string) (sorted_dir_name archive_dir_name : string)
    (w : World F) : option string :=
  category ← ext_map !! lower (splitext src_path).2 ;
  final_dest ← get_unique_filename (join (join base_dir sorted_dir_name) category)
                  (basename src_path) (fs w) ;
  Some (join (join (join base_dir archive_dir_name) (strftime_Y_m_d (clock w)))
             (basename final_dest)).


(** The watch [start_monitoring] schedules. *)
Definition the_watch {F} (a : App F) : ObservedWatch :=
  let base := default "" (base_dir a) in
  mk_watch (mk_handler base (extensions (config a)) (sorted_directory (config a))
              (archive_directory (config a)))
           (join base (incoming_directory (config a))) false.

(** A piece of the core that writes no log record and leaves the clock. *)
Definition silent {F A} (m : M (World F) A) : Prop :=
  ∀ w w', outcome_state (m w) = Some w' → trace w' = trace w ∧ clock w' = clock w.

(** [os.makedirs(p, exist_ok=True)] in the state [s] creates [k]: [k] is
    [p] or one of its missing ancestors. *)
Inductive creates (s : state) : string → string → Prop :=
| creates_here p : s !! p = None → creates s p p
| creates_above p k :
    s !! p = None → all_char sep (dirname p) = false →
    creates s (dirname p) k → creates s p k.

(** No regular file is in the way of [os.makedirs(p, exist_ok=True)]. *)
Inductive makeable (s : state) : string → Prop :=
| makeable_dir p : s !! p = Some Dir → makeable s p
| makeable_top p :
    s !! p = None → all_char sep (dirname p) = true → makeable s p
| makeable_under p :
    s !! p = None → all_char sep (dirname p) = false →
    makeable s (dirname p) → makeable s p.

(** [s'] is [s] with the directories [os.makedirs(p)] creates. *)
Definition extended_by (s : state) (p : string) (s' : state) : Prop :=
  ∀ k n, s' !! k = Some n ↔ s !! k = Some n ∨ (n = Dir ∧ creates s p k).

(** The outcome is a normal return. *)
Definition returned {Σ A} (o : outcome Σ A) : bool :=
  match o with
  | Returned _ _ => true
  | _ => false
  end.

End Notions.

(** ** Further concrete states *)

Module Cases.
Import PyTime Core Gui MemFS.
#[local] Existing Instance ascii_text.

(** The date partition of the day holds a directory named like the file
    to archive, so that the copy fails. *)
Definition occupied_tree : state :=
  <["/base/archive/2026-11-03/photo.jpg" := Dir]>
    (<["/base/archive/2026-11-03" := Dir]> Scenario.incoming_tree).

Definition w_occupied : World state := mk_world occupied_tree Scenario.today [].

(** The category directories were never created. *)
Definition unprepared_tree : state :=
  list_to_map [("/base", Dir); ("/base/in", Dir);
               ("/base/in/photo.jpg", File "JFIF" 1700000000)].

Definition w_unprepared : World state :=
  mk_world unprepared_tree Scenario.today [].

(** [report 2.txt] has been taken as well. *)
Definition more_reports : state :=
  <["d/report 2.txt" := File "third" 3]> Scenario.reports.

(** The base directory the operator picks is a regular file. *)
Definition app_blocked : App state :=
  init Scenario.CONFIG
    (mk_world (<["/base" := File "" 0]> ∅) Scenario.today []).

(** Monitoring was started twice: observer 0 runs and nothing names it. *)
Definition app_leaked : App state :=
  default Scenario.app0
    (mainloop [SelectDirectory "/base"; StartMonitoring;
               SelectDirectory "/base"; StartMonitoring] Scenario.app0).



(** The base directory was selected and prepared, and the incoming
    directory has been removed since. *)
Definition app_unwatchable : App state :=
  set_start_button NORMAL
    (set_base_dir (Some "/base")
       (init Scenario.CONFIG
          (mk_world (delete "/base/in" Scenario.prepared_tree) Scenario.today []))).

(** Two files called [photo.jpg] in two category directories, the first
    of them without write permission. *)
Definition two_photos : ModeFS.state :=
  ModeFS.mk_state
    (<["/base/sorted/images/photo.jpg" := File "first" 1700000000]>
       (<["/base/sorted/pictures" := Dir]>
          (<["/base/sorted/pictures/photo.jpg" := File "second" 1700000002]>
             Scenario.prepared_tree)))
    {[ "/base/sorted/images/photo.jpg" ]}.

Definition w_two_photos : World ModeFS.state :=
  mk_world two_photos Scenario.today [].

End Cases.

(** ** Tactics *)

(** Running the monad of the core. *)
Ltac run :=
  repeat (progress (unfold mbind, mret, M_bind, M_ret, bind, ret, raise, try_except,
            gets, modify, terminating, Core.logging, Core.enter, Core.primitive,
            Core.datetime_now in *;
          simpl in * )).

(** Running the monad of the application. *)
Ltac run_app :=
  repeat (progress (unfold mbind, mret, M_bind, M_ret, bind, ret, raise, try_except,
            gets, modify, Gui.in_world, Core.logging, Gui.Observer_new,
            Gui.Observer_schedule, Gui.Observer_stop in *;
          simpl in * )).

(** Case analysis along the branches of [makedirs_go]. *)
Ltac makedirs_cases H :=
  simpl in H;
  repeat match type of H with
    | context [match ?s !! ?k with _ => _ end] =>
        let E := fresh "Hlook" in destruct (s !! k) as [[]|] eqn:E
    | context [if ?b then _ else _] => destruct b eqn:?
    | context [match MemFS.makedirs_go ?f ?h ?s with _ => _ end] =>
        let R := fresh "Hrec" in destruct (MemFS.makedirs_go f h s) as [? [?|]] eqn:R
    end;
  simplify_eq.

(** * Properties *)

Import PyStr PosixPath PyTime Core Gui MemFS Notions.

(** ** Strings and paths *)

Lemma str_app_cons (c : ascii) (a b : string) : String c a +:+ b = String c (a +:+ b).
Proof. reflexivity. Qed.
Lemma str_app_nil_l (b : string) : "" +:+ b = b.
Proof. reflexivity. Qed.
Lemma str_length_app (a b : string) :
  String.length (a +:+ b) = String.length a + String.length b.
Proof.
  induction a as [|c a IH]; [done|]. rewrite str_app_cons. simpl. by rewrite IH.
Qed.
Lemma str_app_assoc (a b c : string) : (a +:+ b) +:+ c = a +:+ (b +:+ c).
Proof. induction a as [|x a IH]; [done|]. rewrite !str_app_cons. by rewrite IH. Qed.

Lemma str_app_nil_r (a : string) : a +:+ "" = a.
Proof. induction a as [|x a IH]; [done|]. rewrite str_app_cons. by rewrite IH. Qed.

Lemma contains_app (a b : string) c :
  contains (a +:+ b) c = contains a c || contains b c.
Proof.
  induction a as [|x a IH]; [done|]. rewrite str_app_cons. simpl.
  rewrite IH. by rewrite orb_assoc.
Qed.

Lemma take_app_length (a t : string) : take (String.length a) (a +:+ t) = a.
Proof.
  induction a as [|x a IH]; [by destruct t|]. rewrite str_app_cons. simpl.
  by rewrite IH.
Qed.

Lemma drop_app_length (a t : string) : drop (String.length a) (a +:+ t) = t.
Proof. induction a as [|x a IH]; [done|]. by rewrite str_app_cons. Qed.


Lemma take_drop (n : nat) (s : string) : take n s +:+ drop n s = s.
Proof.
  revert s. induction n as [|n IH]; intros [|x s]; simpl; try done.
  rewrite str_app_cons. by rewrite IH.
Qed.

(** Two ways of cutting one string: the shorter prefix is a prefix of the
    longer one. *)
Lemma app_eq_app_le (a1 t1 a2 t2 : string) :
  a1 +:+ t1 = a2 +:+ t2 → String.length a1 ≤ String.length a2 →
  ∃ x, a2 = a1 +:+ x ∧ t1 = x +:+ t2.
Proof.
  revert a2. induction a1 as [|c a1 IH]; intros a2 H Hlen.
  - exists a2. by rewrite !str_app_nil_l in *.
  - destruct a2 as [|c2 a2]; simpl in Hlen; [lia|].
    rewrite !str_app_cons in H. injection H as -> H.
    destruct (IH a2 H) as (x & -> & ->); [lia|]. by exists x.
Qed.

(** [rfind]: the result is [-1] exactly when the character does not occur;
    otherwise it is the position of an occurrence that has none after it. *)
Lemma rfind_from_spec c (s : string) (i : Z) :
  (0 ≤ i)%Z →
  (rfind_from c s i = (-1)%Z ∧ contains s c = false) ∨
  (∃ a b, s = a +:+ String c b ∧ contains b c = false ∧
          rfind_from c s i = (i + Z.of_nat (String.length a))%Z).
Proof.
  revert i. induction s as [|x s IH]; intros i Hi; simpl; [by left|].
  destruct (IH (i + 1)%Z) as [[-> Hno]|(a & b & -> & Hb & ->)]; [lia|..].
  - simpl. destruct (Ascii.eqb_spec x c) as [->|Hne].
    + right. exists "", s. simpl. split_and!; [done..|lia].
    + left. by rewrite Hno.
  - right. exists (String x a), b. rewrite str_app_cons. split_and!; [done..|].
    destruct (Z.leb_spec 0 (i + 1 + Z.of_nat (String.length a))); simpl String.length; lia.
Qed.

Lemma rfind_spec (s : string) c :
  (rfind s c = (-1)%Z ∧ contains s c = false) ∨
  (∃ a b, s = a +:+ String c b ∧ contains b c = false ∧
          rfind s c = Z.of_nat (String.length a)).
Proof. unfold rfind. by apply rfind_from_spec. Qed.

Lemma rfind_ge (s : string) c : (-1 ≤ rfind s c)%Z.
Proof. destruct (rfind_spec s c) as [[-> _]|(a & b & _ & _ & ->)]; lia. Qed.

(** [os.path.basename] has no separator. *)
Lemma basename_no_sep (p : string) : contains (basename p) sep = false.
Proof.
  unfold basename, from.
  destruct (rfind_spec p sep) as [[-> Hno]|(a & b & -> & Hb & ->)]; [done|].
  replace (Z.to_nat (Z.of_nat (String.length a) + 1))
    with (String.length (a +:+ String sep "")) by (rewrite str_length_app; simpl; lia).
  replace (a +:+ String sep b) with ((a +:+ String sep "") +:+ b)
    by (by rewrite str_app_assoc).
  by rewrite drop_app_length.
Qed.

Lemma splitext_scan_cases fuel (p : string) fi di :
  splitext_scan fuel p fi di = (p, "") ∨
  splitext_scan fuel p fi di = (upto p di, from p di).
Proof.
  revert fi. induction fuel as [|fuel IH]; intros fi; simpl; [by left|].
  destruct (fi <? di)%Z; [|by left].
  destruct (negb _); [by right|]. apply IH.
Qed.

(** [os.path.splitext]: the two parts make up the path, and the
    extension is empty or the last dot of the path with what follows it,
    which has no separator in it. *)
Lemma splitext_spec (p : string) :
  p = (splitext p).1 +:+ (splitext p).2 ∧
  ((splitext p).2 = "" ∨
   ∃ e, (splitext p).2 = String extsep e ∧
        contains e extsep = false ∧ contains e sep = false).
Proof.
  unfold splitext.
  destruct (Z.ltb_spec (rfind p sep) (rfind p extsep)) as [Hlt|_]; simpl;
    [|split; [by rewrite str_app_nil_r|by left]].
  destruct (splitext_scan_cases (Z.to_nat (rfind p extsep - rfind p sep)) p
              (rfind p sep + 1) (rfind p extsep)) as [-> | ->]; simpl;
    [split; [by rewrite str_app_nil_r|by left]|].
  pose proof (rfind_ge p sep) as Hsep.
  destruct (rfind_spec p extsep) as [[Hr _]|(a & b & Hp & Hb & Hr)]; [lia|].
  rewrite Hr in *. unfold upto, from. rewrite Nat2Z.id.
  assert (take (String.length a) p = a) as ->.
  { rewrite Hp. apply take_app_length. }
  assert (drop (String.length a) p = String extsep b) as ->.
  { rewrite Hp. apply drop_app_length. }
  split; [done|]. right. exists b. split_and!; [done..|].
  destruct (rfind_spec p sep) as [[_ Hno]|(a' & b' & Hp' & Hb' & Hr')].
  - rewrite Hp, contains_app in Hno. apply orb_false_elim in Hno as [_ Hno].
    by simpl in Hno.
  - rewrite Hr' in Hlt. rewrite Hp in Hp'.
    symmetry in Hp'. apply app_eq_app_le in Hp' as (x & -> & Hx); [|lia].
    rewrite str_length_app in Hlt.
    destruct x as [|c x]; [simpl in Hlt; lia|].
    rewrite str_app_cons in Hx. injection Hx as _ ->.
    rewrite contains_app in Hb'. apply orb_false_elim in Hb' as [_ Hb'].
    by simpl in Hb'.
Qed.


Lemma startswith_contains (b : string) c : contains b c = false → startswith b c = false.
Proof. destruct b as [|x b]; [done|]. simpl. by intros [? _]%orb_false_elim. Qed.

Lemma endswith_snoc (x : string) c d : endswith (x +:+ String c "") d = Ascii.eqb c d.
Proof.
  induction x as [|y x IH]; [done|]. rewrite str_app_cons.
  destruct x as [|z x]; [done|]. rewrite str_app_cons in *. by rewrite <- IH.
Qed.

Lemma all_char_app c (a b : string) : all_char c (a +:+ b) = all_char c a && all_char c b.
Proof.
  induction a as [|x a IH]; [done|]. rewrite str_app_cons. simpl.
  by rewrite IH, andb_assoc.
Qed.

Lemma rfind_from_none c (s : string) i : contains s c = false → rfind_from c s i = (-1)%Z.
Proof.
  revert i. induction s as [|x s IH]; intros i; simpl; [done|].
  intros [-> Hs]%orb_false_elim. by rewrite IH.
Qed.

Lemma rfind_from_app_last c (a b : string) i :
  (0 ≤ i)%Z → contains b c = false →
  rfind_from c (a +:+ String c b) i = (i + Z.of_nat (String.length a))%Z.
Proof.
  intros Hi Hb. revert i Hi. induction a as [|x a IH]; intros i Hi.
  - rewrite str_app_nil_l. simpl. rewrite rfind_from_none by done. simpl.
    rewrite Ascii.eqb_refl. lia.
  - rewrite str_app_cons. simpl rfind_from. rewrite IH by lia.
    destruct (Z.leb_spec 0 (i + 1 + Z.of_nat (String.length a))); simpl String.length; lia.
Qed.

Lemma length_take n (s : string) : String.length (take n s) ≤ String.length s.
Proof.
  revert s. induction n as [|n IH]; intros [|x s]; simpl; try lia.
  specialize (IH s). lia.
Qed.

Lemma length_rstrip (s : string) c : String.length (rstrip s c) ≤ String.length s.
Proof.
  induction s as [|x s IH]; [done|]. simpl.
  destruct (_ && _); simpl; lia.
Qed.

Lemma length_dirname (p : string) : String.length (dirname p) ≤ String.length p.
Proof.
  unfold dirname, upto.
  pose proof (length_take (Z.to_nat (rfind p sep + 1)) p).
  pose proof (length_rstrip (take (Z.to_nat (rfind p sep + 1)) p) sep).
  destruct (_ && _); lia.
Qed.

Lemma all_char_snoc_ne (x t : string) c d :
  c ≠ d → all_char d ((x +:+ String c "") +:+ t) = false.
Proof.
  intros Hne. rewrite !all_char_app. simpl.
  destruct (Ascii.eqb_spec c d); [done|]. by rewrite andb_false_r.
Qed.

Lemma rstrip_cons a (s : string) c :
  rstrip (String a s) c = if Ascii.eqb a c && all_char c s then "" else String a (rstrip s c).
Proof. reflexivity. Qed.

Lemma rstrip_snoc (x : string) c d :
  c ≠ d → rstrip ((x +:+ String c "") +:+ String d "") d = x +:+ String c "".
Proof.
  intros Hne. induction x as [|y x IH].
  - rewrite str_app_nil_l, str_app_cons, str_app_nil_l. simpl.
    destruct (Ascii.eqb_spec c d); [done|]. simpl. by rewrite Ascii.eqb_refl.
  - rewrite !str_app_cons, rstrip_cons, IH.
    by rewrite all_char_snoc_ne, andb_false_r.
Qed.

Lemma rstrip_snoc_same (a : string) c : rstrip (a +:+ String c "") c = rstrip a c.
Proof.
  induction a as [|x a IH].
  - rewrite str_app_nil_l. simpl. by rewrite Ascii.eqb_refl.
  - rewrite str_app_cons, !rstrip_cons, IH, all_char_app. simpl.
    by rewrite Ascii.eqb_refl, andb_true_r.
Qed.

(** [os.path.dirname] shortens a path, unless what it returns is empty
    or made of separators only. *)
Lemma dirname_shorter (p : string) :
  all_char sep (dirname p) = false → String.length (dirname p) < String.length p.
Proof.
  unfold dirname, upto.
  destruct (rfind_spec p sep) as [[-> _]|(a & b & Hp & _ & ->)]; [done|].
  assert (take (Z.to_nat (Z.of_nat (String.length a) + 1)) p = a +:+ String sep "")
    as ->.
  { replace (Z.to_nat (Z.of_nat (String.length a) + 1))
      with (String.length (a +:+ String sep ""))
      by (rewrite str_length_app; simpl; lia).
    rewrite Hp.
    replace (a +:+ String sep b) with ((a +:+ String sep "") +:+ b)
      by (by rewrite str_app_assoc).
    apply take_app_length. }
  destruct (all_char sep (a +:+ String sep "")) eqn:Hall.
  - rewrite andb_false_r. by rewrite Hall.
  - assert (truthy (a +:+ String sep "") = true) as -> by by destruct a.
    cbn [negb andb]. intros _. rewrite rstrip_snoc_same.
    pose proof (length_rstrip a sep). rewrite Hp, str_length_app. simpl. lia.
Qed.

(** A child of a directory whose name does not end with the separator. *)
Lemma dirname_child (x : string) c (b : string) :
  c ≠ sep → contains b sep = false →
  join (x +:+ String c "") b = (x +:+ String c "") +:+ String sep b ∧
  dirname (join (x +:+ String c "") b) = x +:+ String c "".
Proof.
  intros Hc Hb.
  assert (join (x +:+ String c "") b = (x +:+ String c "") +:+ String sep b) as Hj.
  { unfold join. rewrite startswith_contains by done.
    rewrite endswith_snoc. destruct (Ascii.eqb_spec c sep); [done|].
    by destruct x. }
  split; [done|]. rewrite Hj. unfold dirname, rfind, upto.
  rewrite rfind_from_app_last by done.
  replace (Z.to_nat (0 + Z.of_nat (String.length (x +:+ String c "")) + 1))
    with (String.length ((x +:+ String c "") +:+ String sep ""))
    by (rewrite !str_length_app; simpl; lia).
  replace ((x +:+ String c "") +:+ String sep b)
    with (((x +:+ String c "") +:+ String sep "") +:+ b)
    by (by rewrite (str_app_assoc _ (String sep "") b)).
  rewrite take_app_length, all_char_snoc_ne by done.
  assert (truthy ((x +:+ String c "") +:+ String sep "") = true) as -> by by destruct x.
  simpl. by apply rstrip_snoc.
Qed.

Lemma join_date_ends (a date : string) :
  is_Y_m_d date = true → ∃ x c, join a date = x +:+ String c "" ∧ c ≠ sep.
Proof.
  intros H.
  destruct date as [|y1 [|y2 [|y3 [|y4 [|d1 [|m1 [|m2 [|d2 [|a1 [|a2 [|]]]]]]]]]]];
    try done.
  simpl in H. repeat (apply andb_prop in H as [H ?]).
  assert (a2 ≠ sep) as Hne by (intros ->; done).
  assert (y1 ≠ sep) as Hy1 by (intros ->; done).
  set (body := String y1 (String y2 (String y3 (String y4 (String d1
                 (String m1 (String m2 (String d2 (String a1 ""))))))))).
  change (String y1 _) with (body +:+ String a2 "").
  unfold join. assert (startswith (body +:+ String a2 "") sep = false) as ->.
  { simpl. by destruct (Ascii.eqb_spec y1 sep). }
  destruct (_ || _).
  - exists (a +:+ body), a2. by rewrite str_app_assoc.
  - exists (a +:+ String sep body), a2. split; [|done].
    by rewrite str_app_assoc.
Qed.

(** ** The date partition *)

Lemma zfill_year (y : N) : (y ≤ 9999)%N → four_digits (zfill 4 (pretty y)) = true.
Proof.
  intros Hy.
  assert (forallb (λ n, four_digits (zfill 4 (pretty (N.of_nat n)))) (seq 0 (N.to_nat 10000)) = true)
    as Hall by (vm_compute; reflexivity).
  rewrite forallb_forall in Hall.
  specialize (Hall (N.to_nat y)). rewrite N2Nat.id in Hall. apply Hall.
  apply in_seq. lia.
Qed.

Lemma zfill_month_day (n : N) : (n ≤ 31)%N → two_digits (zfill 2 (pretty n)) = true.
Proof.
  intros Hn.
  assert (forallb (λ n, two_digits (zfill 2 (pretty (N.of_nat n)))) (seq 0 (N.to_nat 32)) = true)
    as Hall by (vm_compute; reflexivity).
  rewrite forallb_forall in Hall.
  specialize (Hall (N.to_nat n)). rewrite N2Nat.id in Hall. apply Hall.
  apply in_seq. lia.
Qed.

Lemma strftime_shape (d : datetime) : valid d → is_Y_m_d (strftime_Y_m_d d) = true.
Proof.
  intros (Hy & Hm & Hd). unfold strftime_Y_m_d.
  pose proof (zfill_year (year d) (proj2 Hy)) as H1.
  pose proof (zfill_month_day (month d)) as H2.
  pose proof (zfill_month_day (day d)) as H3.
  destruct (zfill 4 _) as [|y1 [|y2 [|y3 [|y4 [|]]]]]; try done.
  destruct (zfill 2 (pretty (month d))) as [|m1 [|m2 [|]]]; try (by discriminate H2; lia).
  destruct (zfill 2 (pretty (day d))) as [|a1 [|a2 [|]]]; try (by discriminate H3; lia).
  specialize (H2 ltac:(lia)). specialize (H3 ltac:(lia)).
  simpl in *. rewrite H1. 
  apply andb_prop in H2 as [-> ->]. apply andb_prop in H3 as [-> ->]. done.
Qed.





Lemma str_app_inv_tail (a b t : string) : a +:+ t = b +:+ t → a = b.
Proof.
  revert b. induction a as [|x a IH]; intros [|y b] H.
  - done.
  - apply (f_equal String.length) in H. rewrite str_app_nil_l, str_app_cons in H.
    simpl in H. rewrite str_length_app in H. lia.
  - apply (f_equal String.length) in H. rewrite str_app_nil_l, str_app_cons in H.
    simpl in H. rewrite str_length_app in H. lia.
  - rewrite !str_app_cons in H. injection H as -> H. f_equal. by apply IH.
Qed.

Lemma join_inj_r (d x y : string) :
  startswith x sep = startswith y sep → join d x = join d y → x = y.
Proof.
  unfold join. intros ->. destruct (startswith y sep); [done|].
  destruct (negb (truthy d) || endswith d sep).
  - apply String.app_inj.
  - intros H. apply String.app_inj in H. by injection H.
Qed.

Section unique.
Context {F : Type} `{Utext : !Unicode, Ufs : !FileSystem F}.

Lemma candidate_inj (d b e : string) : Inj (=) (=) (candidate d b e).
Proof.
  intros j k H. unfold candidate in H.
  apply join_inj_r in H.
  - do 2 apply String.app_inj in H.
    apply str_app_inv_tail in H. by apply (inj pretty).
  - by destruct b.
Qed.

Lemma os_path_exists_true (s : F) p : os_path_exists s p = true ↔ p ∈ existing s.
Proof. unfold os_path_exists. apply bool_decide_eq_true. Qed.
Lemma os_path_exists_false (s : F) p : os_path_exists s p = false ↔ p ∉ existing s.
Proof. unfold os_path_exists. apply bool_decide_eq_false. Qed.

Lemma unique_loop_None fuel (s : F) d b e c p :
  unique_loop fuel s d b e c p = None →
  p ∈ existing s ∧ ∀ j, c ≤ j < c + fuel → candidate d b e j ∈ existing s.
Proof.
  revert c p. induction fuel as [|fuel IH]; intros c p; simpl;
    destruct (os_path_exists s p) eqn:Hp; try done;
    apply os_path_exists_true in Hp.
  - intros _. split; [done|]. lia.
  - intros H. apply IH in H as [Hc Hrest]. split; [done|].
    intros j Hj. destruct (decide (j = c)) as [->|]; [done|]. apply Hrest. lia.
Qed.

Lemma unique_loop_Some fuel (s : F) d b e c p r :
  unique_loop fuel s d b e c p = Some r →
  (r ∉ existing s) ∧
  (r = p ∨
   (p ∈ existing s ∧ ∃ k, c ≤ k ∧ r = candidate d b e k ∧
     ∀ j, c ≤ j < k → candidate d b e j ∈ existing s)).
Proof.
  revert c p. induction fuel as [|fuel IH]; intros c p; simpl;
    destruct (os_path_exists s p) eqn:Hp; try done.
  - apply os_path_exists_false in Hp. intros [= <-]. auto.
  - apply os_path_exists_true in Hp. intros H.
    apply IH in H as [Hr [->|(Hc & k & Hk & -> & Hbelow)]].
    + split; [done|]. right. split; [done|]. exists c. split_and!; [lia|done|lia].
    + split; [done|]. right. split; [done|]. exists k. split_and!; [lia|done|].
      intros j Hj. destruct (decide (j = c)) as [->|]; [done|]. apply Hbelow. lia.
  - apply os_path_exists_false in Hp. intros [= <-]. auto.
Qed.

Lemma candidates_not_all_existing (s : F) d b e c :
  ¬ ∀ j, c ≤ j < c + S (size (existing s)) → candidate d b e j ∈ existing s.
Proof.
  intros Hall.
  set (l := candidate d b e <$> seq c (S (size (existing s)))).
  assert (NoDup l) as Hnd.
  { pose proof (candidate_inj d b e). apply (NoDup_fmap_2 _), NoDup_seq. }
  assert (list_to_set l ⊆ existing s) as Hsub.
  { intros x. rewrite elem_of_list_to_set. unfold l. rewrite list_elem_of_fmap.
    intros (j & -> & Hj). apply elem_of_seq in Hj. apply Hall. lia. }
  apply subseteq_size in Hsub. rewrite size_list_to_set in Hsub; [|done].
  unfold l in Hsub. rewrite length_fmap, length_seq in Hsub. lia.
Qed.

Lemma get_unique_filename_terminates (s : F) dest_dir filename :
  is_Some (get_unique_filename dest_dir filename s).
Proof.
  unfold get_unique_filename. destruct (splitext filename) as [b e].
  destruct (unique_loop _ _ _ _ _ _ _) eqn:H; [by eexists|].
  apply unique_loop_None in H as [_ H].
  by apply candidates_not_all_existing in H.
Qed.

(** The path [get_unique_filename] returns is free, and it is the plain
    path or the candidate of the least counter from 1 whose path is free. *)
Lemma get_unique_filename_least_free (s : F) (dest_dir filename : string) :
  ∃ dest_path,
    get_unique_filename dest_dir filename s = Some dest_path ∧
    os_path_exists s dest_path = false ∧
    (dest_path = join dest_dir filename ∨
     (os_path_exists s (join dest_dir filename) = true ∧
      ∃ counter, 1 ≤ counter ∧
        dest_path = candidate dest_dir (splitext filename).1 (splitext filename).2 counter ∧
        ∀ j, 1 ≤ j < counter →
          os_path_exists s (candidate dest_dir (splitext filename).1 (splitext filename).2 j) = true)).
Proof.
  destruct (get_unique_filename_terminates s dest_dir filename) as [r Hr].
  exists r. split; [done|].
  unfold get_unique_filename in Hr. destruct (splitext filename) as [b e]. simpl.
  apply unique_loop_Some in Hr as [Hfree Hcase].
  split; [by apply os_path_exists_false|].
  destruct Hcase as [->|(Hp & k & Hk & -> & Hbelow)]; [by left|right].
  split; [by apply os_path_exists_true|].
  exists k. split_and!; [done..|]. intros j Hj. apply os_path_exists_true. auto.
Qed.
End unique.

Lemma calls_of_app f (l1 l2 : list event) :
  calls_of f (l1 ++ l2) = calls_of f l1 ++ calls_of f l2.
Proof. unfold calls_of. apply omap_app. Qed.

Lemma logged_app (l1 l2 : list event) : logged (l1 ++ l2) = logged l1 ++ logged l2.
Proof. unfold logged. apply omap_app. Qed.

Section dispatch.
Context {F : Type} `{Utext : !Unicode, Ufs : !FileSystem F}.
Implicit Types (w : World F) (ext_map : gmap string string).

Lemma set_fs_id w : set_fs (fs w) w = w.
Proof. by destruct w. Qed.

(** The copy of [archive_file] is inside its [try]: a failing copy is
    logged and the function returns. *)
Lemma archive_file_outcome w dest_path archive_dir :
  let archive_path := join archive_dir (strftime_Y_m_d (clock w)) in
  let w0 := emit (Call "archive_file" [dest_path; archive_dir]) w in
  match os_makedirs archive_path (fs w) with
  | (s1, Some e) => archive_file dest_path archive_dir w = Raised e (set_fs s1 w0)
  | (s1, None) =>
      match shutil_copy2 dest_path archive_path s1 with
      | (s2, None) =>
          archive_file dest_path archive_dir w =
          Returned tt (emit (Log INFO ("Archived " +:+ dest_path +:+ " to " +:+ archive_path))
                         (set_fs s2 w0))
      | (s2, Some e) =>
          archive_file dest_path archive_dir w =
          Returned tt (emit (Log ERROR ("Error archiving file: " +:+ exc_str e))
                         (set_fs s2 w0))
      end
  end.
Proof.
  unfold archive_file. run.
  destruct (os_makedirs _ (fs w)) as [s1 [e|]]; [done|]. simpl.
  destruct (shutil_copy2 _ _ s1) as [s2 [e|]]; done.
Qed.

Lemma archive_file_cases w dest_path archive_dir :
  let w0 := emit (Call "archive_file" [dest_path; archive_dir]) w in
  (∃ e s1, archive_file dest_path archive_dir w = Raised e (set_fs s1 w0)) ∨
  (∃ lvl msg s2, archive_file dest_path archive_dir w
                 = Returned tt (emit (Log lvl msg) (set_fs s2 w0))).
Proof.
  pose proof (archive_file_outcome w dest_path archive_dir) as H. cbv zeta in *.
  destruct (os_makedirs _ _) as [s1 [e|]]; [by eauto|].
  destruct (shutil_copy2 _ _ _) as [s2 [e|]]; right; eauto.
Qed.

(** An extension that is not a key of the map: a warning, and nothing else. *)
Lemma move_file_skips w src_path base_dir ext_map
    sorted_dir_name archive_dir_name :
  ext_map !! lower (splitext src_path).2 = None →
  ∃ w',
    move_file src_path base_dir ext_map sorted_dir_name archive_dir_name w
      = Returned tt w' ∧
    fs w' = fs w ∧
    trace w' = trace w ++ [Log WARNING ("Unknown / unsupported file type: " +:+ src_path)].
Proof.
  intros Hext. unfold move_file. rewrite Hext. run. eauto.
Qed.

(** C3. When the move of the file to the resolved destination fails, the
    exception is caught, one record is logged at ERROR level, the
    dispatch returns normally, [archive_file] is not entered, and whatever
    follows the dispatch (the delivery of the next events) runs from the
    state the failed move left. *)
Theorem move_failure_is_isolated w src_path base_dir ext_map sorted_dir_name
    archive_dir_name category final_dest s' e :
  ext_map !! lower (splitext src_path).2 = Some category →
  get_unique_filename (join (join base_dir sorted_dir_name) category)
                      (basename src_path) (fs w) = Some final_dest →
  shutil_move src_path final_dest (fs w) = (s', Some e) →
  let w' := emit (Log ERROR ("Error moving file: " +:+ exc_str e)) (set_fs s' w) in
  move_file src_path base_dir ext_map sorted_dir_name archive_dir_name w
    = Returned tt w' ∧
  calls_of "archive_file" (trace w') = calls_of "archive_file" (trace w) ∧
  ∀ (h : WatcherHandler) (evs : list FileSystemEvent),
    (move_file src_path base_dir ext_map sorted_dir_name archive_dir_name ;;
     deliver h evs) w = deliver h evs w'.
Proof.
  intros Hext Hname Hmove w'.
  assert (move_file src_path base_dir ext_map sorted_dir_name archive_dir_name w
          = Returned tt w') as Hrun.
  { unfold move_file. rewrite Hext. run. rewrite Hname. simpl. by rewrite Hmove. }
  split_and!; [done| |].
  - unfold w'. simpl. rewrite calls_of_app. simpl. apply app_nil_r.
  - intros h evs. unfold mbind, M_bind, bind. by rewrite Hrun.
Qed.

(** C4. When the move succeeds, [archive_file] is entered exactly once
    during the dispatch, and its first argument is the destination that
    [get_unique_filename] returned (with a collision, the renamed path),
    not the source path; its second argument is the archive root. *)
Theorem move_file_archives_final_dest w src_path base_dir ext_map sorted_dir_name
    archive_dir_name category final_dest s' :
  ext_map !! lower (splitext src_path).2 = Some category →
  get_unique_filename (join (join base_dir sorted_dir_name) category)
                      (basename src_path) (fs w) = Some final_dest →
  shutil_move src_path final_dest (fs w) = (s', None) →
  ∃ w',
    move_file src_path base_dir ext_map sorted_dir_name archive_dir_name w
      = Returned tt w' ∧
    calls_of "archive_file" (trace w') =
      calls_of "archive_file" (trace w) ++ [[final_dest; join base_dir archive_dir_name]].
Proof.
  intros Hext Hname Hmove.
  unfold move_file. rewrite Hext. run. rewrite Hname. simpl. rewrite Hmove. simpl.
  match goal with |- context [archive_file ?a ?b ?w1] =>
    destruct (archive_file_cases w1 a b) as [(e & s1 & ->)|(lvl & msg & s2 & ->)]
  end; (eexists; split; [done|]); simpl; rewrite !calls_of_app; simpl;
    by rewrite !app_nil_r.
Qed.

(** A dispatch always returns: no exception leaves [move_file]. *)
Lemma move_file_returns w src_path base_dir ext_map sorted_dir_name archive_dir_name :
  ∃ w', move_file src_path base_dir ext_map sorted_dir_name archive_dir_name w
        = Returned tt w'.
Proof.
  unfold move_file. destruct (ext_map !! _) as [category|]; run; [|eauto].
  destruct (get_unique_filename_terminates (fs w)
              (join (join base_dir sorted_dir_name) category) (basename src_path))
    as [final_dest ->]. simpl.
  destruct (shutil_move _ _ (fs w)) as [s' [e|]]; simpl; [eauto|].
  match goal with |- context [archive_file ?a ?b ?w1] =>
    destruct (archive_file_cases w1 a b) as [(e & s1 & ->)|(lvl & msg & s2 & ->)]
  end; eauto.
Qed.

(** No event stops the delivery: the handler returns on every event. *)
Lemma on_created_returns (h : WatcherHandler) ev w :
  ∃ w', on_created h ev w = Returned tt w'.
Proof.
  unfold on_created. destruct (is_directory ev); simpl; [by eexists|].
  unfold mbind, M_bind, bind, logging, modify.
  apply move_file_returns.
Qed.

(** X1. Whatever the filesystem primitives do, the delivery of any
    sequence of creation events to the handler returns normally: no
    event, supported or not, a file or a directory, makes
    [on_created] raise or loop, so no file can stop the watch. *)
Lemma deliver_returns (h : WatcherHandler) evs w :
  ∃ w', deliver h evs w = Returned tt w'.
Proof.
  revert w. induction evs as [|ev evs IH]; intros w; simpl; [by eexists|].
  unfold mbind, M_bind, bind.
  destruct (on_created_returns h ev w) as [w1 ->]. apply IH.
Qed.
End dispatch.

(** ** The in-memory filesystem *)

Section memfs.
Context `{Utext : !Unicode}.

Lemma isdir_true (s : state) p : isdir s p = true ↔ s !! p = Some Dir.
Proof. unfold isdir. destruct (s !! p) as [[]|]; naive_solver. Qed.

Lemma makedirs_go_dir fuel name (s : state) :
  s !! name = Some Dir → makedirs_go fuel name s = (s, None).
Proof. intros H. destruct fuel; simpl; by rewrite H. Qed.

(** [os.makedirs] keeps every entry that was there. *)
Lemma makedirs_go_preserves fuel name (s s' : state) o :
  makedirs_go fuel name s = (s', o) →
  ∀ q n, s !! q = Some n → s' !! q = Some n.
Proof.
  revert name s s' o. induction fuel as [|fuel IH]; intros name s s' o H q n Hq;
    makedirs_cases H; try done;
    try (rewrite lookup_insert_ne by congruence); eauto.
Qed.

(** On success the path is a directory. *)
Lemma makedirs_go_ok fuel name (s s' : state) :
  makedirs_go fuel name s = (s', None) → s' !! name = Some Dir.
Proof.
  intros H. destruct fuel; makedirs_cases H; try done; apply lookup_insert_eq.
Qed.

(** What [os.makedirs] adds lies at a path no longer than the path asked
    for. *)
Lemma makedirs_go_new fuel name (s s' : state) o q :
  makedirs_go fuel name s = (s', o) → s !! q = None → s' !! q ≠ None →
  String.length q ≤ String.length name.
Proof.
  revert name s s' o. induction fuel as [|fuel IH]; intros name s s' o H Hq Hq';
    pose proof (length_dirname name) as Hlen;
    makedirs_cases H; try done;
    try (destruct (decide (name = q)) as [->|];
         [done|rewrite lookup_insert_ne in Hq' by done]); try done;
    (etrans; [eapply IH; eauto|done]).
Qed.

Lemma makedirs_dir name (s : state) :
  isdir s name = true → makedirs name s = (s, None).
Proof. intros H%isdir_true. by apply makedirs_go_dir. Qed.

Lemma makedirs_ok name (s s' : state) :
  makedirs name s = (s', None) →
  isdir s' name = true ∧ ∀ q n, s !! q = Some n → s' !! q = Some n.
Proof.
  intros H. split.
  - apply isdir_true. by eapply makedirs_go_ok.
  - by eapply makedirs_go_preserves.
Qed.

(** The fuel of [makedirs] is never exhausted. *)
Lemma makedirs_go_fuel fuel name (s s' : state) e :
  String.length name ≤ fuel →
  makedirs_go fuel name s = (s', Some e) → e ≠ RecursionError.
Proof.
  revert name s s' e. induction fuel as [|fuel IH]; intros name s s' e Hlen H;
    pose proof (dirname_shorter name) as Hshort;
    makedirs_cases H; try done.
  - specialize (Hshort eq_refl). lia.
  - eapply IH; [|done]. specialize (Hshort eq_refl). lia.
Qed.

Lemma makedirs_terminates name (s : state) :
  (makedirs name s).2 ≠ Some RecursionError.
Proof.
  unfold makedirs. destruct (makedirs_go _ _ _) as [s' [e|]] eqn:H; [|done].
  simpl. intros [= ->]. by eapply makedirs_go_fuel in H.
Qed.

(** A failing [os.makedirs] has created proper ancestors only. *)
Lemma makedirs_go_fail_new fuel name (s s' : state) e q :
  makedirs_go fuel name s = (s', Some e) → s !! q = None → s' !! q ≠ None →
  String.length q < String.length name.
Proof.
  intros H Hq Hq'. pose proof (dirname_shorter name) as Hshort.
  destruct fuel as [|fuel]; makedirs_cases H; try done.
  specialize (Hshort eq_refl).
  eapply Nat.le_lt_trans; [|exact Hshort]. by eapply makedirs_go_new.
Qed.

(** Running a failed [os.makedirs] again fails in the same way and
    changes nothing. *)
Lemma makedirs_go_fail_again fuel name (s s' : state) e :
  makedirs_go fuel name s = (s', Some e) → makedirs_go fuel name s' = (s', Some e).
Proof.
  revert name s s' e. induction fuel as [|fuel IH]; intros name s s' e H;
    pose proof H as H0; makedirs_cases H; simpl;
    rewrite ?Hlook, ?Hlook0; try done; try (by rewrite Heqb, ?Hlook0).
  assert (s' !! name = None) as ->.
  { destruct (s' !! name) eqn:Hn; [|done]. exfalso.
    assert (String.length name ≤ String.length (dirname name)) as Hle.
    { eapply makedirs_go_new; [exact Hrec|done|by rewrite Hn]. }
    pose proof (dirname_shorter name Heqb). lia. }
  rewrite Heqb.
  assert (s' !! dirname name = None) as ->.
  { destruct (s' !! dirname name) eqn:Hn; [|done]. exfalso.
    assert (String.length (dirname name) < String.length (dirname name)) as Hlt.
    { eapply makedirs_go_fail_new; [exact Hrec|done|by rewrite Hn]. }
    lia. }
  by rewrite (IH _ _ _ _ Hrec).
Qed.

End memfs.

Section archive_on_memfs.
Context `{Utext : !Unicode}.
Implicit Types (w : World state).

Lemma copy2_into_dir (s : state) src dir data mtime :
  s !! src = Some (File data mtime) →
  isdir s dir = true →
  let target := join dir (basename src) in
  target ≠ src → isdir s target = false → dirname target = dir →
  copy2 src dir s = (<[target := File data mtime]> s, None).
Proof.
  intros Hsrc Hdir target Hne Htarget Hparent. unfold copy2.
  rewrite Hsrc, Hdir. fold target.
  destruct (String.eqb_spec src target) as [Heq|_]; [by destruct Hne|].
  rewrite andb_false_r, Htarget. unfold parent_ok.
  rewrite Hparent, Hdir, orb_true_r. done.
Qed.

(** The copy goes to a child of the date partition. *)
Lemma archive_target (d : datetime) archive_dir dest_path :
  valid d →
  let archive_path := join archive_dir (strftime_Y_m_d d) in
  let target := join archive_path (basename dest_path) in
  target = archive_path +:+ String sep (basename dest_path) ∧
  dirname target = archive_path ∧ target ≠ archive_path.
Proof.
  intros Hvalid archive_path target.
  destruct (join_date_ends archive_dir (strftime_Y_m_d d))
    as (x & c & Hx & Hc); [by apply strftime_shape|].
  fold archive_path in Hx.
  destruct (dirname_child x c (basename dest_path) Hc (basename_no_sep dest_path))
    as [Hjoin Hparent].
  rewrite <- Hx in Hjoin, Hparent. fold target in Hjoin, Hparent.
  split_and!; [done..|].
  intros Heq. apply (f_equal String.length) in Heq.
  rewrite Hjoin, str_length_app in Heq. simpl in Heq. lia.
Qed.

(** The copy into the date partition that [os.makedirs] has just made:
    it succeeds, and [os.makedirs] has not touched the place of the
    copy. *)
Lemma copy2_into_partition (s s1 : state) (d : datetime) dest_path archive_dir
    data mtime :
  valid d →
  s !! dest_path = Some (File data mtime) →
  let archive_path := join archive_dir (strftime_Y_m_d d) in
  let target := join archive_path (basename dest_path) in
  makedirs archive_path s = (s1, None) →
  isdir s target = false →
  target ≠ dest_path →
  copy2 dest_path archive_path s1 = (<[target := File data mtime]> s1, None) ∧
  isdir s1 archive_path = true ∧ s1 !! target = s !! target.
Proof.
  intros Hvalid Hsrc archive_path target Hmk Htarget Hne.
  destruct (makedirs_ok _ _ _ Hmk) as [Hdir Hkeep].
  destruct (archive_target d archive_dir dest_path Hvalid) as (Hjoin & Hparent & _).
  fold archive_path target in Hjoin, Hparent.
  assert (s1 !! target = s !! target) as Hsame.
  { destruct (s !! target) as [n|] eqn:Hold; [by apply Hkeep|].
    destruct (s1 !! target) as [n|] eqn:Hnew; [|done]. exfalso.
    assert (String.length target ≤ String.length archive_path) as Hlen.
    { eapply makedirs_go_new; [exact Hmk|done|]. by rewrite Hnew. }
    rewrite Hjoin, str_length_app in Hlen. simpl in Hlen. lia. }
  split_and!; [|done..].
  apply copy2_into_dir; [by apply Hkeep|done|done| |done].
  fold target. unfold isdir in *. by rewrite Hsame.
Qed.

(** One run of [archive_file] on a regular file, when nothing is in the
    way of the date partition. *)
Lemma archive_file_on_memfs w dest_path archive_dir data mtime s1 :
  valid (clock w) →
  fs w !! dest_path = Some (File data mtime) →
  let archive_path := join archive_dir (strftime_Y_m_d (clock w)) in
  let target := join archive_path (basename dest_path) in
  makedirs archive_path (fs w) = (s1, None) →
  isdir (fs w) target = false →
  target ≠ dest_path →
  archive_file dest_path archive_dir w =
    Returned tt
      (emit (Log INFO ("Archived " +:+ dest_path +:+ " to " +:+ archive_path))
         (set_fs (<[target := File data mtime]> s1)
            (emit (Call "archive_file" [dest_path; archive_dir]) w))).
Proof.
  intros Hvalid Hsrc archive_path target Hmk Htarget Hne.
  pose proof (archive_file_outcome w dest_path archive_dir) as Hout.
  cbv zeta in Hout. fold archive_path in Hout.
  change (os_makedirs archive_path (fs w)) with (makedirs archive_path (fs w)) in Hout.
  rewrite Hmk in Hout.
  change (shutil_copy2 dest_path archive_path s1)
    with (copy2 dest_path archive_path s1) in Hout.
  destruct (copy2_into_partition (fs w) s1 (clock w) dest_path archive_dir data mtime
              Hvalid Hsrc Hmk Htarget Hne) as (Hcopy & _).
  fold archive_path target in Hcopy. by rewrite Hcopy in Hout.
Qed.
End archive_on_memfs.

Section archive_on_modefs.
Context `{Utext : !Unicode}.
Implicit Types (w : World ModeFS.state).
Import ModeFS.

Lemma state_eta (s : ModeFS.state) : mk_state (tree s) (read_only s) = s.
Proof. by destruct s. Qed.



End archive_on_modefs.

(** ** The collision law and the classification *)

Section naming.
Context {F : Type} `{Utext : !Unicode, Ufs : !FileSystem F}.

Lemma candidate_report (dest_dir : string) :
  candidate dest_dir "report" ".txt" 1 = join dest_dir "report 1.txt" ∧
  candidate dest_dir "report" ".txt" 2 = join dest_dir "report 2.txt".
Proof. split; reflexivity. Qed.

(** C1. For every filesystem state and destination directory: resolving
    any filename returns a path that does not exist, which is the plain
    path when that is free and otherwise [<base> <k><ext>] for the least
    counter [k >= 1] whose candidate is free (every candidate below [k]
    is occupied, so no occupied slot is skipped or reused); with
    [report.txt] present and [report 1.txt] free the result is
    [report 1.txt], and with both present and [report 2.txt] free it is
    [report 2.txt]. *)
Theorem collision_law (s : F) (dest_dir : string) :
  (∀ filename, ∃ dest_path,
     get_unique_filename dest_dir filename s = Some dest_path ∧
     os_path_exists s dest_path = false ∧
     (dest_path = join dest_dir filename ∨
      (os_path_exists s (join dest_dir filename) = true ∧
       ∃ counter, 1 ≤ counter ∧
         dest_path = candidate dest_dir (splitext filename).1 (splitext filename).2 counter ∧
         ∀ j, 1 ≤ j < counter →
           os_path_exists s
             (candidate dest_dir (splitext filename).1 (splitext filename).2 j) = true))) ∧
  (os_path_exists s (join dest_dir "report.txt") = true →
   os_path_exists s (join dest_dir "report 1.txt") = false →
   get_unique_filename dest_dir "report.txt" s = Some (join dest_dir "report 1.txt")) ∧
  (os_path_exists s (join dest_dir "report.txt") = true →
   os_path_exists s (join dest_dir "report 1.txt") = true →
   os_path_exists s (join dest_dir "report 2.txt") = false →
   get_unique_filename dest_dir "report.txt" s = Some (join dest_dir "report 2.txt")).
Proof.
  split; [intros filename; apply get_unique_filename_least_free|].
  destruct (get_unique_filename_least_free s dest_dir "report.txt")
    as (r & -> & Hfree & Hcase).
  change (splitext "report.txt") with ("report", ".txt") in Hcase. simpl in Hcase.
  destruct (candidate_report dest_dir) as [H1 H2].
  split.
  - intros Hr H1free. f_equal.
    destruct Hcase as [->|(_ & k & Hk & -> & Hbelow)]; [congruence|].
    destruct (decide (k = 1)) as [->|]; [done|].
    specialize (Hbelow 1 ltac:(lia)). congruence.
  - intros Hr H1occ H2free. f_equal.
    destruct Hcase as [->|(_ & k & Hk & -> & Hbelow)]; [congruence|].
    destruct (decide (k = 1)) as [->|]; [congruence|].
    destruct (decide (k = 2)) as [->|]; [done|].
    specialize (Hbelow 2 ltac:(lia)). congruence.
Qed.

(** C2. When the lowercased extension of the source path is not a key
    of the extension map, the dispatch returns normally, the filesystem
    is the one it started from (no move, no copy), one record is logged
    at WARNING level and [archive_file] is not entered. *)
Theorem unsupported_extension_is_skipped (w : World F) src_path base_dir
    (ext_map : gmap string string) sorted_dir_name archive_dir_name :
  ext_map !! lower (splitext src_path).2 = None →
  ∃ w',
    move_file src_path base_dir ext_map sorted_dir_name archive_dir_name w
      = Returned tt w' ∧
    fs w' = fs w ∧
    trace w' = trace w ++
      [Log WARNING ("Unknown / unsupported file type: " +:+ src_path)] ∧
    calls_of "archive_file" (trace w') = calls_of "archive_file" (trace w).
Proof.
  intros Hext.
  destruct (move_file_skips w src_path base_dir ext_map sorted_dir_name
              archive_dir_name Hext) as (w' & Hrun & Hfs & Htrace).
  exists w'. split_and!; [done..|].
  rewrite Htrace, calls_of_app. simpl. apply app_nil_r.
Qed.

End naming.

(** ** Directory preparation *)

Section prepare.
Context `{Utext : !Unicode}.
Implicit Types (w : World state) (a : App state).

Lemma primitive_makedirs_ok w w1 p :
  primitive (os_makedirs p) w = Returned tt w1 →
  isdir (fs w1) p = true ∧ (∀ q n, fs w !! q = Some n → fs w1 !! q = Some n).
Proof.
  unfold primitive. simpl.
  destruct (makedirs p (fs w)) as [s [e|]] eqn:Hmk; [done|].
  intros [= <-]. simpl. by apply makedirs_ok.
Qed.

Lemma primitive_makedirs_noop w p :
  isdir (fs w) p = true → primitive (os_makedirs p) w = Returned tt w.
Proof.
  intros Hdir. unfold primitive. simpl. rewrite makedirs_dir by done.
  by rewrite set_fs_id.
Qed.

Lemma isdir_preserved (s s' : state) p :
  (∀ q n, s !! q = Some n → s' !! q = Some n) → isdir s p = true → isdir s' p = true.
Proof. intros Hkeep H%isdir_true. apply isdir_true. by apply Hkeep. Qed.

Lemma for_each_cons {Σ A} (x : A) xs (body : A → M Σ unit) (σ : Σ) :
  for_each (x :: xs) body σ =
  match body x σ with
  | Returned _ σ' => for_each xs body σ'
  | Raised e σ' => Raised e σ'
  | Diverged => Diverged
  end.
Proof. reflexivity. Qed.

Lemma for_each_makedirs_ok (f : string → string) ps w w1 :
  for_each ps (λ p, primitive (os_makedirs (f p))) w = Returned tt w1 →
  (∀ p, p ∈ ps → isdir (fs w1) (f p) = true) ∧
  (∀ q n, fs w !! q = Some n → fs w1 !! q = Some n).
Proof.
  revert w. induction ps as [|p ps IH]; intros w.
  - intros [= <-]. split; [|done]. intros p Hp. by apply elem_of_nil in Hp.
  - rewrite for_each_cons.
    destruct (primitive (os_makedirs (f p)) w) as [[] w0| |] eqn:Hp; try done.
    intros Hrest. apply primitive_makedirs_ok in Hp as [Hdir Hkeep].
    apply IH in Hrest as [Hdirs Hkeep']. split.
    + intros p' [->|Hp']%elem_of_cons; [|by auto].
      by eapply isdir_preserved.
    + auto.
Qed.

Lemma for_each_makedirs_noop (f : string → string) ps w :
  (∀ p, p ∈ ps → isdir (fs w) (f p) = true) →
  for_each ps (λ p, primitive (os_makedirs (f p))) w = Returned tt w.
Proof.
  induction ps as [|p ps IH]; intros Hall; [done|].
  rewrite for_each_cons.
  rewrite primitive_makedirs_noop by (apply Hall; left).
  apply IH. intros p' Hp'. apply Hall. by right.
Qed.

Lemma prepare_directories_in_ok base cfg folder_names w w1 :
  prepare_directories_in base cfg folder_names w = Returned tt w1 →
  prepared base cfg folder_names (fs w1) ∧
  (∀ q n, fs w !! q = Some n → fs w1 !! q = Some n).
Proof.
  unfold prepare_directories_in, mbind, M_bind, bind.
  destruct (primitive _ w) as [[] wa| |] eqn:Ha; try done.
  destruct (primitive _ wa) as [[] wb| |] eqn:Hb; try done.
  destruct (primitive _ wb) as [[] wc| |] eqn:Hc; try done.
  intros Hd.
  apply primitive_makedirs_ok in Ha as [Ha Hka], Hb as [Hb Hkb], Hc as [Hc Hkc].
  apply for_each_makedirs_ok in Hd as [Hd Hkd].
  split; [|by auto].
  unfold prepared. split_and!; [| | |done].
  - apply (isdir_preserved (fs wa)); [by auto|done].
  - apply (isdir_preserved (fs wb)); [by auto|done].
  - apply (isdir_preserved (fs wc)); [by auto|done].
Qed.

Lemma prepare_directories_in_noop base cfg folder_names w :
  prepared base cfg folder_names (fs w) →
  prepare_directories_in base cfg folder_names w = Returned tt w.
Proof.
  intros (Ha & Hb & Hc & Hd).
  unfold prepare_directories_in, mbind, M_bind, bind.
  rewrite !primitive_makedirs_noop by done.
  by apply for_each_makedirs_noop.
Qed.

Lemma set_world_id a : set_world (world a) a = a.
Proof. by destruct a. Qed.

Lemma primitive_makedirs_raised w w1 e p :
  primitive (os_makedirs p) w = Raised e w1 →
  primitive (os_makedirs p) w1 = Raised e w1 ∧
  (∀ q n, fs w !! q = Some n → fs w1 !! q = Some n).
Proof.
  unfold primitive. simpl.
  destruct (makedirs p (fs w)) as [s [e'|]] eqn:Hmk; [|done].
  intros [= <- <-]. simpl. split.
  - unfold makedirs in *. rewrite (makedirs_go_fail_again _ _ _ _ _ Hmk).
    by destruct w.
  - by eapply makedirs_go_preserves.
Qed.

Lemma for_each_makedirs_raised (f : string → string) ps w w1 e :
  for_each ps (λ p, primitive (os_makedirs (f p))) w = Raised e w1 →
  for_each ps (λ p, primitive (os_makedirs (f p))) w1 = Raised e w1 ∧
  (∀ q n, fs w !! q = Some n → fs w1 !! q = Some n).
Proof.
  revert w. induction ps as [|p ps IH]; intros w; [done|].
  rewrite !for_each_cons.
  destruct (primitive (os_makedirs (f p)) w) as [[] w0|e0 w0|] eqn:Hp; [| |done].
  - intros Hrest. apply primitive_makedirs_ok in Hp as [Hdir Hkeep].
    apply IH in Hrest as [Hagain Hkeep']. split; [|by auto].
    rewrite primitive_makedirs_noop; [done|]. by eapply isdir_preserved.
  - intros [= <- <-]. apply primitive_makedirs_raised in Hp as [Hagain Hkeep].
    by rewrite Hagain.
Qed.

Lemma for_each_makedirs_terminates (f : string → string) ps w :
  for_each ps (λ p, primitive (os_makedirs (f p))) w ≠ Diverged.
Proof.
  revert w. induction ps as [|p ps IH]; intros w; [done|].
  rewrite for_each_cons. unfold primitive at 1.
  destruct (os_makedirs (f p) (fs w)) as [s [e|]]; [done|]. apply IH.
Qed.

Lemma prepare_directories_in_raised base cfg folder_names w w1 e :
  prepare_directories_in base cfg folder_names w = Raised e w1 →
  prepare_directories_in base cfg folder_names w1 = Raised e w1.
Proof.
  unfold prepare_directories_in, mbind, M_bind, bind.
  destruct (primitive _ w) as [[] wa|ea wa|] eqn:Ha; [| |done]; cycle 1.
  { intros [= <- <-]. apply primitive_makedirs_raised in Ha as [-> _]. done. }
  apply primitive_makedirs_ok in Ha as [Ha Hka].
  destruct (primitive _ wa) as [[] wb|eb wb|] eqn:Hb; [| |done]; cycle 1.
  { intros [= <- <-]. apply primitive_makedirs_raised in Hb as [Hb Hkb].
    rewrite primitive_makedirs_noop by (by eapply isdir_preserved).
    by rewrite Hb. }
  apply primitive_makedirs_ok in Hb as [Hb Hkb].
  destruct (primitive _ wb) as [[] wc|ec wc|] eqn:Hc; [| |done]; cycle 1.
  { intros [= <- <-]. apply primitive_makedirs_raised in Hc as [Hc Hkc].
    rewrite primitive_makedirs_noop
      by (apply (isdir_preserved (fs wa)); [by auto|done]).
    rewrite primitive_makedirs_noop by (by eapply isdir_preserved).
    by rewrite Hc. }
  apply primitive_makedirs_ok in Hc as [Hc Hkc].
  intros Hd. apply for_each_makedirs_raised in Hd as [Hd Hkd].
  rewrite primitive_makedirs_noop
    by (apply (isdir_preserved (fs wa)); [by auto|done]).
  rewrite primitive_makedirs_noop
    by (apply (isdir_preserved (fs wb)); [by auto|done]).
  rewrite primitive_makedirs_noop by (by eapply isdir_preserved).
  done.
Qed.

Lemma prepare_directories_in_terminates base cfg folder_names w :
  prepare_directories_in base cfg folder_names w ≠ Diverged.
Proof.
  unfold prepare_directories_in, mbind, M_bind, bind.
  unfold primitive at 1. destruct (os_makedirs _ (fs w)) as [sa [e|]]; [done|].
  unfold primitive at 1. destruct (os_makedirs _ _) as [sb [e|]]; [done|].
  unfold primitive at 1. destruct (os_makedirs _ _) as [sc [e|]]; [done|].
  apply for_each_makedirs_terminates.
Qed.

(** C9. On the in-memory filesystem, for every state of the application:
    when [prepare_directories] returns, running it again from the state
    it left returns as well and leaves that state unchanged; the
    incoming, sorted and archive directories and one category directory
    per value of the extension map are directories in it, and every entry
    that existed before is kept (a path names one node, so nothing is
    duplicated).  When it raises, running it again raises the same
    exception and changes nothing.  It always terminates. *)
Theorem prepare_directories_idempotent a :
  (∀ a1, prepare_directories a = Returned tt a1 →
     prepare_directories a1 = Returned tt a1 ∧
     ∃ base,
       base_dir a = Some base ∧
       let sorted_dir := join base (sorted_directory (config a)) in
       isdir (fs (world a1)) (join base (incoming_directory (config a))) = true ∧
       isdir (fs (world a1)) sorted_dir = true ∧
       isdir (fs (world a1)) (join base (archive_directory (config a))) = true ∧
       (∀ ext category, extensions (config a) !! ext = Some category →
          isdir (fs (world a1)) (join sorted_dir category) = true) ∧
       (∀ q n, fs (world a) !! q = Some n → fs (world a1) !! q = Some n)) ∧
  (∀ e a1, prepare_directories a = Raised e a1 →
     prepare_directories a1 = Raised e a1) ∧
  prepare_directories a ≠ Diverged.
Proof.
  split_and!.
  - intros a1. unfold prepare_directories, mbind, M_bind, bind, gets. simpl.
    destruct (base_dir a) as [base|] eqn:Hbase; [|done].
    unfold in_world.
    destruct (prepare_directories_in _ _ _ (world a)) as [[] w1| |] eqn:Hrun; try done.
    intros [= <-]. simpl. rewrite Hbase.
    apply prepare_directories_in_ok in Hrun as [Hprep Hkeep].
    rewrite prepare_directories_in_noop by done.
    split; [done|]. exists base. destruct Hprep as (Ha & Hb & Hc & Hd).
    split_and!; try done.
    intros ext category Hext. apply Hd.
    unfold category_folders. apply elem_of_elements, elem_of_map_img. eauto.
  - intros e a1. unfold prepare_directories, mbind, M_bind, bind, gets. simpl.
    destruct (base_dir a) as [base|] eqn:Hbase.
    + unfold in_world.
      destruct (prepare_directories_in _ _ _ (world a)) as [|e' w1|] eqn:Hrun; try done.
      intros [= <- <-]. simpl. rewrite Hbase.
      change (world (set_world w1 a)) with w1.
      by rewrite (prepare_directories_in_raised _ _ _ _ _ _ Hrun).
    + unfold raise. intros [= <- <-]. by rewrite Hbase.
  - unfold prepare_directories, mbind, M_bind, bind, gets. simpl.
    destruct (base_dir a) as [base|]; [|done]. unfold in_world.
    pose proof (prepare_directories_in_terminates base (config a)
                  (category_folders (config a)) (world a)).
    by destruct (prepare_directories_in _ _ _ _).
Qed.
End prepare.

(** ** The watch lifecycle *)

Section lifecycle.
Context {F : Type} `{Utext : !Unicode, Ufs : !FileSystem F}.
Implicit Types (a : App F).

Lemma elem_of_running a i : i ∈ running a ↔ alive <$> heap a !! i = Some true.
Proof.
  unfold running. rewrite list_elem_of_filter, elem_of_seq. split; [by intros [? _]|].
  intros H. split; [done|].
  destruct (heap a !! i) eqn:Hi; [|done].
  apply lookup_lt_Some in Hi. lia.
Qed.

(** C7. [start_monitoring] with no base directory selected ([None], or
    the empty string) returns at once: the refusal is reported through
    one log record, at WARNING level, no observer is constructed,
    scheduled or started, [self.observer], the buttons and the filesystem
    are unchanged. *)
Theorem start_monitoring_without_base_dir a :
  base_dir_truthy (base_dir a) = false →
  ∃ a',
    start_monitoring a = Returned tt a' ∧
    logged (trace (world a')) =
      logged (trace (world a)) ++
      [(WARNING, "No base directory selected. Cannot start monitoring.")] ∧
    heap a' = heap a ∧ observer a' = observer a ∧ running a' = running a ∧
    fs (world a') = fs (world a) ∧
    start_button a' = start_button a ∧ stop_button a' = stop_button a.
Proof.
  intros Hbase. unfold start_monitoring. run_app. rewrite Hbase. simpl.
  eexists. split; [done|]. simpl. rewrite logged_app. done.
Qed.

(** [start_monitoring] with a base directory, as a function of what the
    start of the emitter does: [self.observer] names a new observer in
    both cases; the observer runs and the buttons change only if the
    emitter starts. *)
Lemma start_monitoring_run a :
  base_dir_truthy (base_dir a) = true →
  start_monitoring a =
    match emitter_start (watch_path (the_watch a)) (fs (world a)) with
    | Some e =>
        Raised e
          (set_heap (heap a ++ [mk_observer [the_watch a] false false])
             (set_observer (Some (length (heap a))) a))
    | None =>
        Returned tt
          (set_stop_button NORMAL
             (set_start_button DISABLED
                (set_heap (heap a ++ [mk_observer [the_watch a] true true])
                   (set_observer (Some (length (heap a))) a))))
    end.
Proof.
  intros Hbase. unfold start_monitoring, the_watch. run_app. rewrite Hbase. simpl.
  unfold Observer_start. run_app.
  rewrite !(alter_app_r_alt _ (heap a)) by (by rewrite ?length_app; lia).
  rewrite Nat.sub_diag. simpl.
  rewrite lookup_app_r by done. rewrite Nat.sub_diag. simpl.
  destruct (emitter_start _ _) as [e|]; simpl; [done|].
  rewrite ?(alter_app_r_alt _ (heap a)) by (by rewrite ?length_app; lia).
  by rewrite ?Nat.sub_diag.
Qed.

(** [start_monitoring] has no guard on [self.observer]: with a base
    directory whose incoming directory can be watched it constructs and
    starts a new observer whatever the state of the previous one. *)
Lemma start_monitoring_constructs a :
  base_dir_truthy (base_dir a) = true →
  emitter_start (watch_path (the_watch a)) (fs (world a)) = None →
  ∃ a',
    start_monitoring a = Returned tt a' ∧
    observer a' = Some (length (heap a)) ∧
    (∃ ob, heap a' = heap a ++ [ob] ∧ started ob = true ∧ alive ob = true) ∧
    world a' = world a ∧ base_dir a' = base_dir a ∧ config a' = config a ∧
    start_button a' = DISABLED ∧ stop_button a' = NORMAL.
Proof.
  intros Hbase Hwatch. rewrite (start_monitoring_run a Hbase), Hwatch.
  eexists. split; [done|]. simpl. split_and!; try done. by eexists.
Qed.

(** When the emitter cannot be started the exception leaves
    [start_monitoring]: [self.observer] names the new observer, which
    does not run, and the buttons are as before. *)
Lemma start_monitoring_raises a e :
  base_dir_truthy (base_dir a) = true →
  emitter_start (watch_path (the_watch a)) (fs (world a)) = Some e →
  ∃ a',
    start_monitoring a = Raised e a' ∧
    observer a' = Some (length (heap a)) ∧
    (∃ ob, heap a' = heap a ++ [ob] ∧ started ob = false ∧ alive ob = false) ∧
    world a' = world a ∧ base_dir a' = base_dir a ∧ config a' = config a ∧
    start_button a' = start_button a ∧ stop_button a' = stop_button a.
Proof.
  intros Hbase Hwatch. rewrite (start_monitoring_run a Hbase), Hwatch.
  eexists. split; [done|]. simpl. split_and!; try done. by eexists.
Qed.

Lemma start_monitoring_while_running a o :
  observer a = Some o → o ∈ running a → base_dir_truthy (base_dir a) = true →
  emitter_start (watch_path (the_watch a)) (fs (world a)) = None →
  ∃ a',
    start_monitoring a = Returned tt a' ∧
    observer a' = Some (length (heap a)) ∧ o ≠ length (heap a) ∧
    o ∈ running a' ∧ length (heap a) ∈ running a' ∧
    trace (world a') = trace (world a).
Proof.
  intros Hobs Hrun Hbase Hwatch.
  destruct (start_monitoring_constructs a Hbase Hwatch)
    as (a' & Hstart & Hobs' & (ob & Hheap & _ & Halive) & Hworld & _).
  exists a'. apply elem_of_running in Hrun.
  assert (o < length (heap a)) as Hlt.
  { destruct (heap a !! o) eqn:Ho; [|done]. by apply lookup_lt_Some in Ho. }
  split_and!; try done.
  - lia.
  - apply elem_of_running. rewrite Hheap, lookup_app_l by done. done.
  - apply elem_of_running. rewrite Hheap, lookup_app_r by done.
    rewrite Nat.sub_diag. simpl. by rewrite Halive.
  - by rewrite Hworld.
Qed.

(** [stop_monitoring] on a stopped instance touches no observer. *)
Lemma stop_monitoring_when_stopped a :
  observer a = None →
  stop_monitoring a = Returned tt (set_stop_button DISABLED (set_start_button NORMAL a)).
Proof. intros Hobs. unfold stop_monitoring. run_app. by rewrite Hobs. Qed.

(** [stop_monitoring] when [self.observer] names an observer: its
    watches are unscheduled; if its thread was started the thread ends
    and the application is in its stopped state, if not, [join()] raises
    and nothing else changes. *)
Lemma stop_monitoring_run a o ob :
  observer a = Some o → heap a !! o = Some ob →
  stop_monitoring a =
    if started ob then
      Returned tt
        (set_stop_button DISABLED
           (set_start_button NORMAL
              (set_observer None
                 (set_heap (<[o := mk_observer [] true false]> (heap a)) a))))
    else
      Raised (RuntimeError "cannot join thread before it is started")
        (set_heap (<[o := mk_observer [] false (alive ob)]> (heap a)) a).
Proof.
  intros Hobs Hob. unfold stop_monitoring. run_app. rewrite Hobs. simpl.
  unfold Observer_join. run_app.
  rewrite list_lookup_alter_eq, Hob. simpl.
  destruct (started ob) eqn:Hstarted; simpl.
  - do 4 f_equal. unfold set_heap. simpl. f_equal.
    apply list_eq. intros i. destruct (decide (i = o)) as [->|].
    + rewrite list_lookup_alter_eq, list_lookup_alter_eq, Hob.
      rewrite list_lookup_insert_eq by (by eapply lookup_lt_Some). done.
    + by rewrite !list_lookup_alter_ne, list_lookup_insert_ne.
  - f_equal. unfold set_heap. simpl. f_equal.
    apply list_eq. intros i. destruct (decide (i = o)) as [->|].
    + rewrite list_lookup_alter_eq, Hob.
      rewrite list_lookup_insert_eq by (by eapply lookup_lt_Some). simpl.
      by rewrite Hstarted.
    + by rewrite !list_lookup_alter_ne, list_lookup_insert_ne.
Qed.

(** [stop_monitoring] on a running instance ends the observer that
    [self.observer] names, and only that one. *)
Lemma stop_monitoring_when_running a o :
  observer a = Some o → o ∈ running a →
  (∀ i ob, heap a !! i = Some ob → alive ob = true → started ob = true) →
  ∃ a',
    stop_monitoring a = Returned tt a' ∧ observer a' = None ∧
    (o ∉ running a') ∧ (∀ i, i ≠ o → (i ∈ running a' ↔ i ∈ running a)) ∧
    length (heap a') = length (heap a) ∧
    world a' = world a ∧ base_dir a' = base_dir a ∧ config a' = config a ∧
    start_button a' = NORMAL ∧ stop_button a' = DISABLED.
Proof.
  intros Hobs Hrun Hthreads. apply elem_of_running in Hrun.
  destruct (heap a !! o) as [ob|] eqn:Hob; [|done]. simpl in Hrun.
  rewrite (stop_monitoring_run a o ob Hobs Hob).
  rewrite (Hthreads o ob Hob) by congruence.
  eexists. split; [done|]. simpl. split_and!; try done.
  - rewrite elem_of_running. simpl.
    rewrite list_lookup_insert_eq by (by eapply lookup_lt_Some). done.
  - intros i Hi. rewrite !elem_of_running. simpl.
    by rewrite list_lookup_insert_ne.
  - by rewrite length_insert.
Qed.
End lifecycle.

(** ** The specification's scenarios, evaluated *)

#[local] Existing Instance ascii_text.

(** C5. The date partition cannot be created because the archive root is
    a regular file: [os.makedirs] stands before the [try] of
    [archive_file], so the exception leaves [archive_file]; in a dispatch
    it is caught by the handler of [move_file], which reports the file,
    already moved, as an error of the move. *)
Theorem archive_makedirs_failure_escapes :
  outcome_exception
    (archive_file "/base/sorted/images/photo.jpg" "/base/archive" Scenario.w_blocked)
  = Some (NotADirectoryError "/base/archive/2026-11-03") ∧
  (logged ∘ trace <$>
     outcome_state
       (move_file "/base/in/photo.jpg" "/base" (extensions Scenario.CONFIG)
          "sorted" "archive" Scenario.w_blocked))
  = Some [(INFO, "Moved /base/in/photo.jpg to /base/sorted/images/photo.jpg");
          (ERROR, "Error moving file: [Errno 20] Not a directory: '/base/archive/2026-11-03'")].
Proof. split; vm_compute; reflexivity. Qed.

(** C8. Select a directory, start, select a directory again (which
    enables the start button while the observer runs), start: a second
    observer is constructed and started without a word in the log, both
    run, and [self.observer] names the second only; stopping then ends
    the second and leaves the first one running with the application in
    its stopped state. *)
Theorem second_start_leaves_two_watchers :
  let twice := [SelectDirectory "/base"; StartMonitoring;
                SelectDirectory "/base"; StartMonitoring] in
  (running <$> mainloop twice Scenario.app0) = Some [0; 1] ∧
  (observer <$> mainloop twice Scenario.app0) = Some (Some 1) ∧
  (logged ∘ trace ∘ world <$> mainloop twice Scenario.app0) = Some [] ∧
  (running <$> mainloop (twice ++ [StopMonitoring]) Scenario.app0) = Some [0] ∧
  (lifecycle_of <$> mainloop (twice ++ [StopMonitoring]) Scenario.app0) = Some Stopped.
Proof. repeat split; vm_compute; reflexivity. Qed.

(** ** The theorems at concrete inputs *)

Lemma collision_law_witness :
  get_unique_filename "d" "report.txt" Scenario.reports = Some "d/report 2.txt".
Proof.
  apply (proj2 (proj2 (collision_law Scenario.reports "d"))); vm_compute; reflexivity.
Defined.

Lemma unsupported_extension_is_skipped_witness :
  ∃ w',
    move_file "/base/in/notes.txt" "/base" (extensions Scenario.CONFIG)
      "sorted" "archive" Scenario.w_incoming = Returned tt w' ∧
    fs w' = fs Scenario.w_incoming ∧
    trace w' = trace Scenario.w_incoming ++
      [Log WARNING ("Unknown / unsupported file type: " +:+ "/base/in/notes.txt")] ∧
    calls_of "archive_file" (trace w')
      = calls_of "archive_file" (trace Scenario.w_incoming).
Proof.
  apply (unsupported_extension_is_skipped Scenario.w_incoming "/base/in/notes.txt").
  vm_compute. reflexivity.
Defined.

Lemma move_failure_is_isolated_witness :
  move_file "/base/in/ghost.jpg" "/base" (extensions Scenario.CONFIG)
    "sorted" "archive" Scenario.w_incoming
  = Returned tt
      (emit (Log ERROR ("Error moving file: "
                        +:+ exc_str (FileNotFoundError "/base/in/ghost.jpg")))
         (set_fs Scenario.incoming_tree Scenario.w_incoming)).
Proof.
  refine (proj1 (move_failure_is_isolated Scenario.w_incoming "/base/in/ghost.jpg"
                   "/base" (extensions Scenario.CONFIG) "sorted" "archive" "images"
                   "/base/sorted/images/ghost.jpg" Scenario.incoming_tree
                   (FileNotFoundError "/base/in/ghost.jpg") _ _ _));
    vm_compute; reflexivity.
Defined.

Lemma move_file_archives_final_dest_witness :
  ∃ w',
    move_file "/base/in/photo.jpg" "/base" (extensions Scenario.CONFIG)
      "sorted" "archive" Scenario.w_incoming = Returned tt w' ∧
    calls_of "archive_file" (trace w') =
      calls_of "archive_file" (trace Scenario.w_incoming) ++
      [["/base/sorted/images/photo.jpg"; join "/base" "archive"]].
Proof.
  refine (move_file_archives_final_dest Scenario.w_incoming "/base/in/photo.jpg"
            "/base" (extensions Scenario.CONFIG) "sorted" "archive" "images"
            "/base/sorted/images/photo.jpg" Scenario.moved_tree _ _ _);
    vm_compute; reflexivity.
Defined.


(** C6, the claim as it is written.  [photo.jpg] of [images] has no
    write permission, and so has its archive copy; archiving [photo.jpg]
    of [pictures] on the same day fails with [PermissionError], which is
    logged, and the partition still holds the first copy. *)
Lemma read_only_archive_copy_stays :
  ((λ w, (ModeFS.tree (fs w) !! "/base/archive/2026-11-03/photo.jpg",
          logged (trace w))) <$>
   outcome_state
     ((archive_file "/base/sorted/images/photo.jpg" "/base/archive" ;;
       archive_file "/base/sorted/pictures/photo.jpg" "/base/archive")
        Cases.w_two_photos))
  = Some (Some (File "first" 1700000000),
          [(INFO, "Archived /base/sorted/images/photo.jpg to /base/archive/2026-11-03");
           (ERROR, "Error archiving file: [Errno 13] Permission denied: '/base/archive/2026-11-03/photo.jpg'")]).
Proof. vm_compute. reflexivity. Qed.

Lemma start_monitoring_without_base_dir_witness :
  ∃ a',
    start_monitoring Scenario.app0 = Returned tt a' ∧
    logged (trace (world a')) =
      logged (trace (world Scenario.app0)) ++
      [(WARNING, "No base directory selected. Cannot start monitoring.")] ∧
    heap a' = heap Scenario.app0 ∧ observer a' = observer Scenario.app0 ∧
    running a' = running Scenario.app0 ∧
    fs (world a') = fs (world Scenario.app0) ∧
    start_button a' = start_button Scenario.app0 ∧
    stop_button a' = stop_button Scenario.app0.
Proof.
  apply (start_monitoring_without_base_dir Scenario.app0). reflexivity.
Defined.

Lemma prepare_directories_idempotent_witness :
  ∃ a1,
    prepare_directories Scenario.app_selected = Returned tt a1 ∧
    prepare_directories a1 = Returned tt a1 ∧
    isdir (fs (world a1)) "/base/sorted/images" = true.
Proof.
  set (a1 := match prepare_directories Scenario.app_selected with
             | Returned _ a => a
             | _ => Scenario.app_selected
             end).
  assert (prepare_directories Scenario.app_selected = Returned tt a1) as Hrun
    by (vm_compute; reflexivity).
  exists a1.
  destruct (proj1 (prepare_directories_idempotent Scenario.app_selected) a1 Hrun)
    as (Hagain & base & Hbase & _ & _ & _ & Hcategories & _).
  split_and!; [exact Hrun|exact Hagain|].
  injection Hbase as <-. apply (Hcategories ".jpg" "images"). reflexivity.
Defined.


(** * Further properties of the code *)

Import Notions.

(** ** Paths: the final component and the extension *)

(** ** Decimal numerals *)

Lemma pretty_N_char_digit (x : N) : is_digit (pretty_N_char x) = true.
Proof. unfold pretty_N_char. by repeat case_match. Qed.

Lemma pretty_N_go_contains (x : N) (s : string) c :
  is_digit c = false → contains (pretty_N_go x s) c = contains s c.
Proof.
  intros Hc. revert s. induction (N.lt_wf_0 x) as [x _ IH]; intros s.
  destruct (decide (x = 0)%N) as [->|Hx]; [by rewrite pretty_N_go_0|].
  rewrite pretty_N_go_step by lia. rewrite IH by (apply N.div_lt; lia).
  cbn [contains].
  destruct (Ascii.eqb_spec (pretty_N_char (x `mod` 10)) c) as [<-|]; [|done].
  by rewrite pretty_N_char_digit in Hc.
Qed.

(** A numeral holds digits only. *)
Lemma pretty_nat_contains (k : nat) c : is_digit c = false → contains (pretty k) c = false.
Proof.
  intros Hc. unfold pretty, pretty_nat, pretty, pretty_N.
  case_decide.
  - cbn [contains]. rewrite orb_false_r. apply Ascii.eqb_neq.
    intros <-. by vm_compute in Hc.
  - by rewrite pretty_N_go_contains.
Qed.

(** ** The final component and the extension *)

Lemma basename_cases (p : string) :
  (contains p sep = false ∧ rfind p sep = (-1)%Z ∧ basename p = p) ∨
  (∃ a b, p = a +:+ String sep b ∧ contains b sep = false ∧
          rfind p sep = Z.of_nat (String.length a) ∧ basename p = b).
Proof.
  unfold basename, from.
  destruct (rfind_spec p sep) as [[-> Hno]|(a & b & -> & Hb & ->)]; [by left|].
  right. exists a, b. split_and!; try done.
  replace (Z.to_nat (Z.of_nat (String.length a) + 1))
    with (String.length (a +:+ String sep "")) by (rewrite str_length_app; simpl; lia).
  replace (a +:+ String sep b) with ((a +:+ String sep "") +:+ b)
    by (by rewrite str_app_assoc).
  by rewrite drop_app_length.
Qed.

Lemma rfind_none (s : string) c : contains s c = false → rfind s c = (-1)%Z.
Proof. apply rfind_from_none. Qed.

Lemma rfind_app_last (a b : string) c :
  contains b c = false → rfind (a +:+ String c b) c = Z.of_nat (String.length a).
Proof. intros Hb. unfold rfind. by rewrite rfind_from_app_last. Qed.

Lemma basename_app_last (a b : string) :
  contains b sep = false → basename (a +:+ String sep b) = b.
Proof.
  intros Hb. destruct (basename_cases (a +:+ String sep b))
    as [(Hno & _)|(a' & b' & Heq & Hb' & Hr & ->)].
  - rewrite contains_app in Hno. simpl in Hno. by rewrite orb_true_r in Hno.
  - rewrite rfind_app_last in Hr by done.
    apply Nat2Z.inj in Hr.
    apply app_eq_app_le in Heq as (x & Hx & Hx'); [|lia].
    assert (x = "") as ->.
    { apply (f_equal String.length) in Hx. rewrite str_length_app in Hx.
      destruct x; [done|simpl in Hx; lia]. }
    rewrite str_app_nil_l in Hx'. by injection Hx'.
Qed.

Lemma basename_nosep (b : string) : contains b sep = false → basename b = b.
Proof.
  intros Hb. destruct (basename_cases b) as [(_ & _ & ->)|(a' & b' & -> & _)]; [done|].
  rewrite contains_app in Hb. simpl in Hb. by rewrite orb_true_r in Hb.
Qed.

(** Appending text without a separator extends the final component. *)
Lemma basename_app_nosep (x t : string) :
  contains t sep = false → basename (x +:+ t) = basename x +:+ t.
Proof.
  intros Ht. destruct (basename_cases x) as [(Hx & _ & ->)|(a & b & -> & Hb & _ & ->)].
  - apply basename_nosep. by rewrite contains_app, Hx, Ht.
  - rewrite str_app_assoc, str_app_cons. apply basename_app_last.
    by rewrite contains_app, Hb, Ht.
Qed.

Lemma endswith_app_sep (a : string) c :
  endswith a c = true → ∃ a', a = a' +:+ String c "".
Proof.
  induction a as [|x a IH]; [done|]. simpl.
  destruct a as [|y a].
  - intros ->%Ascii.eqb_eq. by exists "".
  - intros H. destruct (IH H) as [a' ->]. by exists (String x a').
Qed.

(** [os.path.join] keeps the final component of its second argument. *)
Lemma basename_join (d b : string) : basename (join d b) = basename b.
Proof.
  unfold join. destruct (startswith b sep) eqn:Hstart; [done|].
  assert (∀ a, basename ((a +:+ String sep "") +:+ b) = basename b) as Hsep.
  { intros a. destruct (basename_cases b) as [(Hb & _ & ->)|(x & y & -> & Hy & _ & ->)].
    - rewrite str_app_assoc, str_app_cons, str_app_nil_l. by apply basename_app_last.
    - rewrite <- str_app_assoc. by apply basename_app_last. }
  destruct (negb (truthy d) || endswith d sep) eqn:Hd.
  - apply orb_true_iff in Hd as [Hd|Hd].
    + by destruct d.
    + apply endswith_app_sep in Hd as [a ->]. apply Hsep.
  - replace (d +:+ String sep b) with ((d +:+ String sep "") +:+ b)
      by (by rewrite str_app_assoc). apply Hsep.
Qed.

Lemma drop_cons (i : nat) (p : string) :
  i < String.length p → ∃ c, drop i p = String c (drop (S i) p).
Proof.
  revert p. induction i as [|i IH]; intros [|x p] Hlen; simpl in Hlen; try lia.
  - by exists x.
  - destruct (IH p) as [c Hc]; [lia|]. by exists c.
Qed.

(** The loop of [_splitext]: it returns at the first character that is
    not a dot, and falls through when there is none. *)
Lemma splitext_scan_spec fuel (p : string) (i m : nat) :
  m ≤ fuel → i + m ≤ String.length p →
  splitext_scan fuel p (Z.of_nat i) (Z.of_nat (i + m)) =
  if all_char extsep (take m (drop i p)) then (p, "")
  else (take (i + m) p, drop (i + m) p).
Proof.
  revert i m. induction fuel as [|fuel IH]; intros i m Hfuel Hlen.
  - assert (m = 0) as -> by lia. done.
  - simpl splitext_scan. destruct m as [|m].
    + rewrite Nat.add_0_r, Z.ltb_irrefl. done.
    + destruct (Z.ltb_spec (Z.of_nat i) (Z.of_nat (i + S m))) as [_|]; [|lia].
      destruct (drop_cons i p) as [c Hc]; [lia|].
      unfold slice, upto, from.
      replace (Z.to_nat (Z.of_nat i + 1 - Z.of_nat i)) with 1 by lia.
      rewrite !Nat2Z.id, Hc. cbn [take all_char].
      destruct (Ascii.eqb_spec c extsep) as [->|Hne].
      * simpl negb. cbn [andb].
        replace (Z.of_nat i + 1)%Z with (Z.of_nat (S i)) by lia.
        replace (i + S m) with (S i + m) by lia.
        apply IH; lia.
      * assert (String.eqb (String c "") (String extsep "") = false) as ->.
        { apply String.eqb_neq. congruence. }
        done.
Qed.

(** The extension of a path is the extension of its final component. *)
Lemma splitext_ext_basename (p : string) :
  (splitext p).2 = component_ext (basename p).
Proof.
  unfold splitext, component_ext.
  destruct (basename_cases p) as [(Hno & -> & ->)|(a & b & Hp & Hb & -> & ->)].
  - destruct (rfind_spec p extsep) as [[-> _]|(x & y & Hp & Hy & ->)]; [done|].
    destruct (Z.ltb_spec (-1) (Z.of_nat (String.length x))) as [_|]; [|lia].
    destruct (Z.ltb_spec (Z.of_nat (String.length x)) 0) as [|_]; [lia|].
    pose proof (splitext_scan_spec (Z.to_nat (Z.of_nat (String.length x) - -1)) p 0
                  (String.length x)) as Hscan.
    cbn [Nat.add] in Hscan. change (-1 + 1)%Z with (Z.of_nat 0).
    rewrite Hscan; [|lia|rewrite Hp, str_length_app; lia].
    cbn [drop]. unfold upto, from. rewrite Nat2Z.id. by destruct (all_char _ _).
  - destruct (rfind_spec b extsep) as [[-> Hnodot]|(x & y & Hb' & Hy & ->)].
    + simpl.
      destruct (rfind_spec p extsep) as [[-> _]|(x & y & Hp' & Hy & ->)].
      { destruct (Z.ltb_spec (Z.of_nat (String.length a)) (-1)) as [|_]; [lia|done]. }
      destruct (Z.ltb_spec (Z.of_nat (String.length a)) (Z.of_nat (String.length x)))
        as [Hlt|_]; [|done].
      exfalso. rewrite Hp' in Hp.
      replace (a +:+ String sep b) with ((a +:+ String sep "") +:+ b) in Hp
        by (by rewrite str_app_assoc).
      symmetry in Hp. apply app_eq_app_le in Hp as (z & _ & Hz);
        [|rewrite str_length_app; simpl; lia].
      rewrite Hz, contains_app in Hnodot. simpl in Hnodot.
      by rewrite orb_true_r in Hnodot.
    + assert (rfind p extsep
              = Z.of_nat (String.length (a +:+ String sep x))) as ->.
      { rewrite Hp, Hb'.
        replace (a +:+ String sep (x +:+ String extsep y))
          with ((a +:+ String sep x) +:+ String extsep y)
          by (by rewrite str_app_assoc).
        by apply rfind_app_last. }
      rewrite str_length_app. simpl String.length.
      destruct (Z.ltb_spec (Z.of_nat (String.length a))
                  (Z.of_nat (String.length a + S (String.length x)))) as [_|]; [|lia].
      destruct (Z.ltb_spec (Z.of_nat (String.length x)) 0) as [|_]; [lia|].
      pose proof (splitext_scan_spec
                    (Z.to_nat (Z.of_nat (String.length a + S (String.length x))
                               - Z.of_nat (String.length a)))
                    p (S (String.length a)) (String.length x)) as Hscan.
      replace (Z.of_nat (S (String.length a)))
        with (Z.of_nat (String.length a) + 1)%Z in Hscan by lia.
      replace (S (String.length a) + String.length x)
        with (String.length a + S (String.length x)) in Hscan by lia.
      rewrite Hscan; [|lia|rewrite Hp, Hb', !str_length_app; simpl;
                           rewrite str_length_app; simpl; lia].
      assert (drop (S (String.length a)) p = b) as ->.
      { rewrite Hp.
        replace (a +:+ String sep b) with ((a +:+ String sep "") +:+ b)
          by (by rewrite str_app_assoc).
        replace (S (String.length a)) with (String.length (a +:+ String sep ""))
          by (rewrite str_length_app; simpl; lia).
        apply drop_app_length. }
      unfold upto, from. rewrite Nat2Z.id.
      destruct (all_char extsep (take (String.length x) b)); [done|]. simpl.
      rewrite Hp, Hb'.
      replace (a +:+ String sep (x +:+ String extsep y))
        with ((a +:+ String sep x) +:+ String extsep y)
        by (by rewrite str_app_assoc).
      replace (String.length a + S (String.length x))
        with (String.length (a +:+ String sep x))
        by (rewrite str_length_app; simpl; lia).
      by rewrite !drop_app_length.
Qed.

Lemma component_ext_dot (r e : string) :
  contains e extsep = false →
  component_ext (r +:+ String extsep e) =
  if all_char extsep r then "" else String extsep e.
Proof.
  intros He. unfold component_ext. rewrite rfind_app_last by done.
  destruct (Z.ltb_spec (Z.of_nat (String.length r)) 0) as [|_]; [lia|].
  unfold upto, from. rewrite Nat2Z.id, take_app_length, drop_app_length. done.
Qed.

Lemma component_ext_no_dot (c : string) :
  contains c extsep = false → component_ext c = "".
Proof. intros Hc. unfold component_ext. by rewrite rfind_none. Qed.

(** Text without a dot, put in front of the extension, leaves the
    extension as it is. *)
Lemma component_ext_insert (bb t ext : string) :
  t ≠ "" → contains t extsep = false →
  (ext = "" ∨ ∃ e, ext = String extsep e ∧ contains e extsep = false) →
  component_ext (bb +:+ ext) = ext →
  component_ext (bb +:+ t +:+ ext) = ext.
Proof.
  intros Ht Hnodot [->|(e & -> & He)] Hext.
  - rewrite !str_app_nil_r in *.
    destruct (rfind_spec bb extsep) as [[_ Hbb]|(a & b & -> & Hb & _)].
    + apply component_ext_no_dot. by rewrite contains_app, Hbb, Hnodot.
    + rewrite component_ext_dot in Hext by done.
      rewrite str_app_assoc, str_app_cons.
      rewrite component_ext_dot by (by rewrite contains_app, Hb, Hnodot).
      by destruct (all_char extsep a).
  - rewrite <- str_app_assoc. rewrite component_ext_dot by done.
    rewrite all_char_app.
    assert (all_char extsep t = false) as ->; [|by rewrite andb_false_r].
    destruct t as [|x t]; [done|]. cbn [all_char contains] in *.
    by apply orb_false_elim in Hnodot as [-> _].
Qed.

Section extension.
Context {F : Type} `{Utext : !Unicode, Ufs : !FileSystem F}.

(** X8. The path [get_unique_filename] returns has the extension of the
    filename it was asked for, with or without a counter; in a dispatch,
    where the filename is the final component of the source path, it has
    the extension of the source path. *)
Theorem resolved_path_keeps_the_extension (s : F) (dest_dir filename dest_path : string) :
  get_unique_filename dest_dir filename s = Some dest_path →
  (splitext dest_path).2 = (splitext filename).2 ∧
  ∀ src_path, filename = basename src_path →
    (splitext dest_path).2 = (splitext src_path).2.
Proof.
  intros Hp.
  assert ((splitext dest_path).2 = (splitext filename).2) as Hsame.
  { destruct (get_unique_filename_least_free s dest_dir filename)
      as (r & Hr & _ & Hcase).
    rewrite Hp in Hr. injection Hr as <-.
    destruct Hcase as [->|(_ & k & _ & -> & _)].
    { by rewrite !splitext_ext_basename, basename_join. }
    destruct (splitext_spec filename) as [Hf Hext].
    pose proof (splitext_ext_basename filename) as Hcomp.
    destruct (splitext filename) as [b e]. simpl in *. unfold candidate.
    assert (contains e sep = false) as Hesep.
    { destruct Hext as [->|(e' & -> & _ & He')]; [done|]. by simpl. }
    assert (is_digit " " = false ∧ is_digit sep = false ∧ is_digit extsep = false)
      as (_ & Hd1 & Hd2) by done.
    rewrite splitext_ext_basename, basename_join.
    rewrite basename_app_nosep;
      [|by rewrite str_app_cons, str_app_nil_l; simpl;
           rewrite contains_app, pretty_nat_contains, Hesep].
    rewrite Hf, basename_app_nosep in Hcomp by done.
    replace (basename b +:+ " " +:+ pretty k +:+ e)
      with (basename b +:+ (" " +:+ pretty k) +:+ e)
      by (by rewrite (str_app_assoc " " (pretty k) e)).
    apply component_ext_insert; [done| | |done].
    - rewrite str_app_cons, str_app_nil_l. simpl. by apply pretty_nat_contains.
    - destruct Hext as [->|(e' & -> & He' & _)]; [by left|right; eauto]. }
  split; [done|]. intros src_path ->. rewrite Hsame.
  rewrite !splitext_ext_basename. f_equal. apply basename_nosep, basename_no_sep.
Qed.
End extension.

(** ** The dispatch, on any filesystem *)

Section more_dispatch.
Context {F : Type} `{Utext : !Unicode, Ufs : !FileSystem F}.
Implicit Types (w : World F) (ext_map : gmap string string).

(** X7. The extension of the source is lowercased before the lookup and
    the keys of the map are not: a key that is not already in lower case
    is never matched, so a dispatch runs exactly as if the key were not
    in the map. *)
Theorem key_not_in_lower_case_is_dead w src_path base_dir ext_map k
    sorted_dir_name archive_dir_name :
  lower k ≠ k →
  move_file src_path base_dir ext_map sorted_dir_name archive_dir_name w =
  move_file src_path base_dir (delete k ext_map) sorted_dir_name archive_dir_name w.
Proof.
  intros Hk. unfold move_file. rewrite lookup_delete_ne; [done|].
  intros ->. by rewrite lower_lower in Hk.
Qed.

(** X2. When the move and the creation of the date partition succeed
    and the copy raises, the dispatch returns normally; the filesystem is
    the one the failed copy left (the move is not undone, nothing is
    retried) and the log gains the record of the move and one ERROR
    record "Error archiving file: ...". *)
Theorem archive_copy_failure_keeps_the_move w src_path base_dir ext_map
    sorted_dir_name archive_dir_name category final_dest s' s1 s2 e :
  ext_map !! lower (splitext src_path).2 = Some category →
  get_unique_filename (join (join base_dir sorted_dir_name) category)
                      (basename src_path) (fs w) = Some final_dest →
  shutil_move src_path final_dest (fs w) = (s', None) →
  let archive_path :=
    join (join base_dir archive_dir_name) (strftime_Y_m_d (clock w)) in
  os_makedirs archive_path s' = (s1, None) →
  shutil_copy2 final_dest archive_path s1 = (s2, Some e) →
  ∃ w',
    move_file src_path base_dir ext_map sorted_dir_name archive_dir_name w
      = Returned tt w' ∧
    fs w' = s2 ∧
    logged (trace w') = logged (trace w) ++
      [(INFO, "Moved " +:+ src_path +:+ " to " +:+ final_dest);
       (ERROR, "Error archiving file: " +:+ exc_str e)].
Proof.
  intros Hext Hname Hmove archive_path Hmk Hcopy.
  unfold move_file. rewrite Hext. run. rewrite Hname. simpl. rewrite Hmove. simpl.
  match goal with |- context [archive_file ?a ?b ?w1] =>
    pose proof (archive_file_outcome w1 a b) as Hout
  end.
  simpl in Hout. fold archive_path in Hout. rewrite Hmk, Hcopy in Hout.
  rewrite Hout. eexists. split; [done|]. simpl. split; [done|].
  rewrite !logged_app. simpl. by rewrite <- !app_assoc.
Qed.
End more_dispatch.

Lemma startswith_app_nonempty (a b : string) c :
  a ≠ "" → startswith (a +:+ b) c = startswith a c.
Proof. by destruct a. Qed.

Section counters.
Context {F : Type} `{Utext : !Unicode, Ufs : !FileSystem F}.

(** A candidate of the loop is never the plain path. *)
Lemma candidate_ne_plain (d f : string) k :
  candidate d (splitext f).1 (splitext f).2 k ≠ join d f.
Proof.
  destruct (splitext_spec f) as [Hf Hext].
  destruct (splitext f) as [b e]. simpl in *. unfold candidate.
  intros Heq. rewrite Hf in Heq. apply join_inj_r in Heq.
  - apply String.app_inj in Heq. apply (f_equal String.length) in Heq.
    rewrite !str_length_app in Heq. simpl in Heq. lia.
  - destruct b as [|x b]; [|done]. rewrite !str_app_nil_l.
    destruct Hext as [->|(e' & -> & _)]; done.
Qed.

(** X9. If no path has disappeared since a name was resolved to the
    candidate of counter [k], and that candidate is now taken, resolving
    the same name again gives the candidate of a larger counter. *)
Theorem resolution_counter_grows (s s' : F) (d f : string) (k : nat) :
  existing s ⊆ existing s' →
  get_unique_filename d f s = Some (candidate d (splitext f).1 (splitext f).2 k) →
  os_path_exists s' (candidate d (splitext f).1 (splitext f).2 k) = true →
  ∃ k', k < k' ∧
    get_unique_filename d f s' = Some (candidate d (splitext f).1 (splitext f).2 k').
Proof.
  intros Hsub Hk Hocc.
  destruct (get_unique_filename_least_free s d f) as (r & Hr & Hfree & Hcase).
  rewrite Hk in Hr. injection Hr as <-.
  destruct Hcase as [Hplain|(Hp & k0 & Hk0 & Heq & Hbelow)];
    [by apply candidate_ne_plain in Hplain|].
  apply (candidate_inj d) in Heq as <-.
  destruct (get_unique_filename_least_free s' d f) as (r' & Hr' & Hfree' & Hcase').
  destruct Hcase' as [->|(Hp' & k' & Hk' & -> & Hbelow')].
  { apply os_path_exists_true in Hp. apply os_path_exists_false in Hfree'.
    destruct Hfree'. by apply Hsub. }
  exists k'. split; [|done].
  destruct (decide (k' < k)) as [Hlt|Hge].
  - specialize (Hbelow k' ltac:(lia)). apply os_path_exists_true in Hbelow.
    apply os_path_exists_false in Hfree'. destruct Hfree'. by apply Hsub.
  - destruct (decide (k' = k)) as [->|]; [congruence|lia].
Qed.
End counters.

(** ** The dispatch, on the in-memory filesystem *)

Section dispatch_on_memfs.
Context `{Utext : !Unicode}.
Implicit Types (w : World state) (ext_map : gmap string string).

(** What [os.makedirs] adds is a directory. *)
Lemma makedirs_go_new_dir fuel name (s s' : state) o q n :
  makedirs_go fuel name s = (s', o) → s !! q = None → s' !! q = Some n → n = Dir.
Proof.
  revert name s s' o. induction fuel as [|fuel IH]; intros name s s' o H Hq Hq';
    makedirs_cases H; try congruence;
    try (destruct (decide (name = q)) as [->|];
         [rewrite lookup_insert_eq in Hq'; congruence
         |rewrite lookup_insert_ne in Hq' by done]);
    try congruence; eauto.
Qed.

Lemma move_fresh (s : state) src dst data mtime :
  s !! src = Some (File data mtime) → s !! dst = None → parent_ok s dst = true →
  move src dst s = (<[dst := File data mtime]> (delete src s), None).
Proof.
  intros Hsrc Hdst Hparent. unfold move, isdir. by rewrite Hsrc, Hdst, Hparent.
Qed.

(** A failed [shutil.move] of what is not a directory changes nothing. *)
Lemma move_failed (s s' : state) src dst e :
  isdir s src = false → move src dst s = (s', Some e) → s' = s.
Proof.
  unfold move, isdir. intros Hsrc.
  destruct (_ && String.eqb src dst); [done|].
  destruct (_ && bool_decide _); [by intros [= <-]|].
  destruct (s !! src) as [[]|]; [|done|by intros [= <-]].
  destruct (parent_ok _ _); [done|by intros [= <-]].
Qed.

(** [shutil.move] of what is not a directory to a path that does not
    exist keeps every other entry. *)
Lemma move_keeps (s s' : state) src dst o q n :
  isdir s src = false →
  move src dst s = (s', o) → s !! dst = None → q ≠ src → s !! q = Some n →
  s' !! q = Some n.
Proof.
  intros Hsrc Hmove Hdst Hq Hlook. destruct o as [e|].
  { apply move_failed in Hmove as ->; done. }
  revert Hmove. unfold move. unfold isdir in *. rewrite Hdst. simpl.
  destruct (s !! src) as [[]|]; [|done..].
  destruct (parent_ok _ _); [|done]. intros [= <-].
  rewrite lookup_insert_ne by congruence. by rewrite lookup_delete_ne.
Qed.

(** [shutil.copy2] into a directory writes the copy and nothing else. *)
Lemma copy2_keeps (s s' : state) src dir o q n :
  copy2 src dir s = (s', o) → isdir s dir = true →
  q ≠ join dir (basename src) → s !! q = Some n → s' !! q = Some n.
Proof.
  unfold copy2. intros Hcopy Hdir Hq Hlook. rewrite Hdir in Hcopy.
  destruct (_ && String.eqb _ _); [by injection Hcopy as <-|].
  destruct (s !! src) as [[]|]; [|by injection Hcopy as <-..].
  destruct (isdir s _); [by injection Hcopy as <-|].
  destruct (negb _); injection Hcopy as <-; [done|].
  by rewrite lookup_insert_ne.
Qed.

Lemma get_unique_filename_free (s : state) d f p :
  get_unique_filename d f s = Some p → s !! p = None.
Proof.
  intros Hp.
  destruct (get_unique_filename_least_free s d f) as (r & Hr & Hfree & _).
  rewrite Hp in Hr. injection Hr as <-.
  apply os_path_exists_false in Hfree. by apply not_elem_of_dom.
Qed.

(** X3. On the in-memory filesystem, for a regular file with an
    extension of the map, an existing category directory, a valid clock
    and nothing in the way of the archive copy: the dispatch returns, the
    file is at the resolved destination with its content and
    modification time, a copy with the same content lies in the date
    partition under the final component of the destination, no regular
    file is left at the source path, and the log gains the two INFO
    records of the move and of the archive. *)
Theorem dispatch_moves_and_archives w src_path base_dir ext_map sorted_dir_name
    archive_dir_name category final_dest data mtime :
  valid (clock w) →
  ext_map !! lower (splitext src_path).2 = Some category →
  fs w !! src_path = Some (File data mtime) →
  get_unique_filename (join (join base_dir sorted_dir_name) category)
                      (basename src_path) (fs w) = Some final_dest →
  parent_ok (fs w) final_dest = true →
  let moved := <[final_dest := File data mtime]> (delete src_path (fs w)) in
  let archive_path :=
    join (join base_dir archive_dir_name) (strftime_Y_m_d (clock w)) in
  let target := join archive_path (basename final_dest) in
  (makedirs archive_path moved).2 = None →
  isdir moved target = false →
  target ≠ final_dest → target ≠ src_path →
  ∃ w',
    move_file src_path base_dir ext_map sorted_dir_name archive_dir_name w
      = Returned tt w' ∧
    fs w' !! final_dest = Some (File data mtime) ∧
    fs w' !! target = Some (File data mtime) ∧
    (∀ d m, fs w' !! src_path ≠ Some (File d m)) ∧
    logged (trace w') = logged (trace w) ++
      [(INFO, "Moved " +:+ src_path +:+ " to " +:+ final_dest);
       (INFO, "Archived " +:+ final_dest +:+ " to " +:+ archive_path)].
Proof.
  intros Hvalid Hext Hsrc Hname Hparent moved archive_path target Hmk Htarget
    Hne Hne'.
  pose proof (get_unique_filename_free _ _ _ _ Hname) as Hfree.
  destruct (makedirs archive_path moved) as [s1 o] eqn:Hmk1. simpl in Hmk. subst o.
  set (w1 := emit (Log INFO ("Moved " +:+ src_path +:+ " to " +:+ final_dest))
               (set_fs moved w)).
  assert (archive_file final_dest (join base_dir archive_dir_name) w1 =
          Returned tt
            (emit (Log INFO ("Archived " +:+ final_dest +:+ " to " +:+ archive_path))
               (set_fs (<[target := File data mtime]> s1)
                  (emit (Call "archive_file"
                           [final_dest; join base_dir archive_dir_name]) w1))))
    as Harch.
  { apply archive_file_on_memfs; try done. apply lookup_insert_eq. }
  eexists. split.
  { unfold move_file. rewrite Hext. run. rewrite Hname. simpl.
    rewrite (move_fresh _ _ _ data mtime) by done. simpl.
    fold moved. fold w1. by rewrite Harch. }
  simpl. destruct (makedirs_ok _ _ _ Hmk1) as [_ Hkeep].
  split_and!.
  - rewrite lookup_insert_ne by done. apply Hkeep. apply lookup_insert_eq.
  - apply lookup_insert_eq.
  - intros d m. rewrite lookup_insert_ne by done.
    assert (moved !! src_path = None) as Hgone.
    { unfold moved. rewrite lookup_insert_ne by congruence. apply lookup_delete_eq. }
    intros Hback. by eapply makedirs_go_new_dir in Hback.
  - rewrite !logged_app. simpl. by rewrite <- !app_assoc.
Qed.

(** X4. On the in-memory filesystem, a dispatch of a source that is not
    a directory, however it ends, keeps every entry except the source and
    the archive copy: the resolved destination is fresh, so no file of
    the category directory is overwritten or removed. *)
Theorem dispatch_keeps_other_entries w w' src_path base_dir ext_map
    sorted_dir_name archive_dir_name q n :
  outcome_state
    (move_file src_path base_dir ext_map sorted_dir_name archive_dir_name w)
    = Some w' →
  isdir (fs w) src_path = false →
  q ≠ src_path →
  archive_target_of src_path base_dir ext_map sorted_dir_name archive_dir_name w
    ≠ Some q →
  fs w !! q = Some n → fs w' !! q = Some n.
Proof.
  unfold archive_target_of, move_file.
  destruct (ext_map !! _) as [category|]; simpl; [|by intros [= <-]].
  destruct (get_unique_filename_terminates (fs w)
              (join (join base_dir sorted_dir_name) category) (basename src_path))
    as [final_dest Hname].
  pose proof (get_unique_filename_free _ _ _ _ Hname) as Hfree.
  run. rewrite Hname. simpl.
  destruct (move src_path final_dest (fs w)) as [s' o] eqn:Hmove.
  intros Hrun Hnodir Hq Htarget Hlook.
  pose proof (move_keeps _ _ _ _ _ _ _ Hnodir Hmove Hfree Hq Hlook) as Hlook'.
  destruct o as [e|]; simpl in Hrun; [by injection Hrun as <-|].
  match type of Hrun with context [archive_file ?a ?b ?w1] =>
    pose proof (archive_file_outcome w1 a b) as Hout
  end.
  simpl in Hout.
  destruct (makedirs _ s') as [s1 [e|]] eqn:Hmk.
  { rewrite Hout in Hrun. simpl in Hrun. injection Hrun as <-. simpl.
    by eapply makedirs_go_preserves. }
  destruct (makedirs_ok _ _ _ Hmk) as [Hdir Hkeep].
  destruct (copy2 final_dest _ s1) as [s2 o] eqn:Hcopy.
  assert (s2 !! q = Some n) as Hend.
  { eapply copy2_keeps; [exact Hcopy|done| |by apply Hkeep]. congruence. }
  destruct o as [e|]; rewrite Hout in Hrun; simpl in Hrun;
    by injection Hrun as <-.
Qed.


End dispatch_on_memfs.

(** ** The operator's controls *)

Section controls.
Context {F : Type} `{Utext : !Unicode, Ufs : !FileSystem F}.
Implicit Types (w : World F) (a : App F).

Lemma silent_bind {A B} (m : M (World F) A) (k : A → M (World F) B) :
  silent m → (∀ x, silent (k x)) → silent (m ≫= k).
Proof.
  intros Hm Hk w w'. unfold mbind, M_bind, bind.
  destruct (m w) as [x w0|e w0|] eqn:Hrun; [| |done].
  - intros H. apply Hk in H as [-> ->]. apply Hm. by rewrite Hrun.
  - intros [= <-]. apply Hm. by rewrite Hrun.
Qed.

Lemma silent_primitive (op : F → F * option PyException) : silent (primitive op).
Proof.
  intros w w'. unfold primitive.
  destruct (op (fs w)) as [s [e|]]; by intros [= <-].
Qed.

Lemma silent_for_each {A} (body : A → M (World F) unit) xs :
  (∀ x, silent (body x)) → silent (for_each xs body).
Proof.
  intros Hbody. induction xs as [|x xs IH]; [by intros w w' [= <-]|].
  apply (silent_bind (body x) (λ _, for_each xs body)); auto.
Qed.

(** [prepare_directories] writes no log record and reads no clock. *)
Lemma prepare_directories_in_silent base cfg folder_names :
  silent (prepare_directories_in base cfg folder_names).
Proof.
  unfold prepare_directories_in.
  repeat (apply silent_bind; [apply silent_primitive|intros _]).
  apply silent_for_each. intros x. apply silent_primitive.
Qed.

(** [prepare_directories] changes the filesystem and nothing else. *)
Lemma prepare_directories_frame a a' :
  outcome_state (prepare_directories a) = Some a' →
  ∃ w', a' = set_world w' a ∧ trace w' = trace (world a).
Proof.
  unfold prepare_directories, mbind, M_bind, bind, gets. simpl.
  destruct (base_dir a) as [base|].
  - unfold in_world.
    destruct (prepare_directories_in _ _ _ (world a)) as [[] w'|e w'|] eqn:Hrun;
      [| |done]; intros [= <-]; exists w'; (split; [done|]);
      eapply prepare_directories_in_silent; by rewrite Hrun.
  - intros [= <-]. exists (world a). by destruct a.
Qed.

(** What [select_directory] leaves behind, whether it returns or raises. *)
Lemma select_directory_frame chosen_dir a a' :
  outcome_state (select_directory chosen_dir a) = Some a' →
  heap a' = heap a ∧ observer a' = observer a ∧ stop_button a' = stop_button a ∧
  trace (world a') = trace (world a) ∧
  (truthy chosen_dir = false → a' = a) ∧
  (truthy chosen_dir = true →
     base_dir a' = Some chosen_dir ∧ dir_label a' = chosen_dir ∧
     (start_button a' = NORMAL ∨ start_button a' = start_button a)).
Proof.
  unfold select_directory. destruct (truthy chosen_dir) eqn:Hc.
  - unfold mbind, M_bind, bind, modify. simpl.
    match goal with |- context [prepare_directories ?a1] =>
      pose proof (prepare_directories_frame a1) as Hprep;
      destruct (prepare_directories a1) as [[] a2|e a2|]
    end; [| |done]; intros [= <-];
      destruct (Hprep a2 eq_refl) as (w' & -> & Htrace); simpl;
      split_and!; try done; auto.
  - intros [= <-]. split_and!; done.
Qed.

Lemma start_monitoring_rejects a :
  base_dir_truthy (base_dir a) = false →
  start_monitoring a =
  Returned tt (set_world (emit (Log WARNING
      "No base directory selected. Cannot start monitoring.") (world a)) a).
Proof. intros Hbase. unfold start_monitoring. run_app. by rewrite Hbase. Qed.

(** What [start_monitoring] leaves behind, whether it returns or raises:
    the observers that exist are untouched and [self.observer] is as
    before or names a new one. *)
Lemma start_monitoring_frame a a' :
  outcome_state (start_monitoring a) = Some a' →
  (∀ i, i < length (heap a) → heap a' !! i = heap a !! i) ∧
  (observer a' = observer a ∨ observer a' = Some (length (heap a))).
Proof.
  destruct (base_dir_truthy (base_dir a)) eqn:Hbase.
  - rewrite (start_monitoring_run a Hbase).
    destruct (emitter_start _ _) as [e|]; intros [= <-]; simpl;
      (split; [|by right]); intros i Hi; by rewrite lookup_app_l.
  - rewrite (start_monitoring_rejects a Hbase). intros [= <-]. simpl. auto.
Qed.

(** What [stop_monitoring] leaves behind, whether it returns or raises:
    only the observer that [self.observer] names is touched, and
    [self.observer] is as before or [None]. *)
Lemma stop_monitoring_frame a a' :
  outcome_state (stop_monitoring a) = Some a' →
  (∀ i, observer a ≠ Some i → heap a' !! i = heap a !! i) ∧
  (observer a' = observer a ∨ observer a' = None).
Proof.
  destruct (observer a) as [o|] eqn:Hobs.
  - destruct (heap a !! o) as [ob|] eqn:Hob.
    + rewrite (stop_monitoring_run a o ob Hobs Hob).
      destruct (started ob); intros [= <-]; simpl;
        (split; [|by auto]); intros i Hi; rewrite list_lookup_insert_ne; congruence.
    + unfold stop_monitoring, Observer_join. run_app. rewrite Hobs. simpl.
      rewrite list_lookup_alter_eq, Hob. simpl. intros [= <-]. simpl.
      split; [|by right]. intros i Hi. rewrite list_lookup_alter_ne; congruence.
  - rewrite (stop_monitoring_when_stopped a Hobs). intros [= <-]. simpl. auto.
Qed.



(** An observer that runs and that [self.observer] does not name is out
    of reach of every control. *)
Lemma operate_keeps_orphan c a a' i :
  i ∈ running a → observer a ≠ Some i →
  outcome_state (operate c a) = Some a' →
  i ∈ running a' ∧ observer a' ≠ Some i.
Proof.
  intros Hi Hne Hrun. pose proof Hi as Hlook. apply elem_of_running in Hlook.
  assert (i < length (heap a)) as Hlt.
  { destruct (heap a !! i) eqn:E; [|done]. by apply lookup_lt_Some in E. }
  destruct c as [chosen_dir| |]; simpl in Hrun.
  - apply select_directory_frame in Hrun as (Hheap & Hobserver & _).
    rewrite elem_of_running, Hheap, Hobserver. by split.
  - unfold press, mbind, M_bind, bind, gets in Hrun. simpl in Hrun.
    destruct (start_button a); [|simpl in Hrun; injection Hrun as <-; by split].
    apply start_monitoring_frame in Hrun as [Hheap Hobserver].
    rewrite elem_of_running, Hheap by done. split; [done|].
    destruct Hobserver as [->| ->]; [done|]. intros [= Heq]. lia.
  - unfold press, mbind, M_bind, bind, gets in Hrun. simpl in Hrun.
    destruct (stop_button a); [|simpl in Hrun; injection Hrun as <-; by split].
    apply stop_monitoring_frame in Hrun as [Hheap Hobserver].
    rewrite elem_of_running, Hheap by done. split; [done|].
    by destruct Hobserver as [->| ->].
Qed.

(** X13. An observer that runs and that [self.observer] does not name
    keeps running, and stays unnamed, through every sequence of
    controls: [stop_monitoring] only ever stops the observer that
    [self.observer] names. *)
Theorem orphaned_observer_is_never_stopped cs a a' i :
  i ∈ running a → observer a ≠ Some i →
  mainloop cs a = Some a' →
  i ∈ running a' ∧ observer a' ≠ Some i.
Proof.
  revert a. induction cs as [|c cs IH]; intros a Hi Hne; simpl;
    [by intros [= <-]|].
  destruct (outcome_state (operate c a)) as [a1|] eqn:Hc; [|done].
  destruct (operate_keeps_orphan c a a1 i Hi Hne Hc) as [Hi1 Hne1]. by apply IH.
Qed.


(** X18. When the incoming directory cannot be watched, [start_monitoring]
    raises after it has assigned [self.observer]: the application names
    an observer that never ran, the buttons are as they were (the stop
    button stays disabled if it was), and a [stop_monitoring] from there
    raises in [join()], clears nothing and leaves [self.observer] set. *)
Theorem failed_start_leaves_a_dead_observer a e :
  base_dir_truthy (base_dir a) = true →
  emitter_start (join (default "" (base_dir a)) (incoming_directory (config a)))
    (fs (world a)) = Some e →
  ∃ a1 a2,
    start_monitoring a = Raised e a1 ∧
    observer a1 = Some (length (heap a)) ∧
    (length (heap a) ∉ running a1) ∧
    (∀ i, i ∈ running a1 ↔ i ∈ running a) ∧
    world a1 = world a ∧
    start_button a1 = start_button a ∧ stop_button a1 = stop_button a ∧
    stop_monitoring a1 =
      Raised (RuntimeError "cannot join thread before it is started") a2 ∧
    observer a2 = observer a1 ∧
    start_button a2 = start_button a ∧ stop_button a2 = stop_button a ∧
    (∀ i, i ∈ running a2 ↔ i ∈ running a).
Proof.
  intros Hbase Hwatch.
  destruct (start_monitoring_raises a e Hbase Hwatch)
    as (a1 & Hrun1 & Hobserver & (ob & Hheap & Hstarted & Hob) & Hworld & _ & _
        & Hb1 & Hb2).
  assert (heap a1 !! length (heap a) = Some ob) as Hlook.
  { rewrite Hheap, lookup_app_r by done. by rewrite Nat.sub_diag. }
  assert (∀ x i, ((heap a ++ [x]) !! i = Some x → alive x = false) →
            alive <$> (heap a ++ [x]) !! i = Some true ↔
            alive <$> heap a !! i = Some true) as Hsame.
  { intros x i Hx. destruct (decide (i < length (heap a))).
    - by rewrite lookup_app_l.
    - rewrite (lookup_ge_None_2 (heap a)) by lia.
      destruct ((heap a ++ [x]) !! i) as [y|] eqn:Hy; [|done].
      apply lookup_app_Some in Hy as Hy'. destruct Hy' as [Hy'|[_ Hy']].
      { apply lookup_lt_Some in Hy'. lia. }
      destruct (i - length (heap a)); [|done]. injection Hy' as <-.
      simpl. rewrite Hx; done. }
  exists a1. eexists. split; [done|].
  rewrite (stop_monitoring_run a1 _ ob Hobserver Hlook), Hstarted.
  split_and!; try done.
  - rewrite elem_of_running, Hlook. simpl. by rewrite Hob.
  - intros i. rewrite !elem_of_running, Hheap. apply Hsame. by intros _.
  - intros i. rewrite !elem_of_running. simpl. rewrite Hheap.
    rewrite insert_app_r_alt by done. rewrite Nat.sub_diag. simpl.
    apply Hsame. by intros _.
Qed.
End controls.

Section select.
Context {F : Type} `{Utext : !Unicode, Ufs : !FileSystem F}.
Implicit Types (a : App F).

(** X11. [select_directory] records the chosen directory before it
    prepares it: when the preparation raises, [self.base_dir] and the
    label already name the new directory, while the buttons, the
    observers and the log are as before (a start button enabled by an
    earlier selection stays enabled). *)
Theorem select_directory_failure_keeps_the_selection chosen_dir a a' e :
  select_directory chosen_dir a = Raised e a' →
  base_dir a' = Some chosen_dir ∧ dir_label a' = chosen_dir ∧
  start_button a' = start_button a ∧ stop_button a' = stop_button a ∧
  observer a' = observer a ∧ heap a' = heap a ∧
  trace (world a') = trace (world a).
Proof.
  unfold select_directory. destruct (truthy chosen_dir); [|done].
  unfold mbind, M_bind, bind, modify. simpl.
  unfold prepare_directories, mbind, M_bind, bind, gets, raise. simpl.
  unfold in_world.
  match goal with |- context [prepare_directories_in ?b ?c ?l ?w] =>
    pose proof (prepare_directories_in_silent b c l w) as Hsilent;
    destruct (prepare_directories_in b c l w) as [[] w'|e' w'|]
  end; [done| |done].
  intros [= <- <-]. simpl. destruct (Hsilent w' eq_refl) as [-> _]. done.
Qed.
End select.

Section select_on_memfs.
Context `{Utext : !Unicode}.
Implicit Types (a : App state).

(** X10. On the in-memory filesystem: when [select_directory] returns
    for a non-empty answer, the base directory is recorded and shown,
    the start button is enabled, the incoming, sorted and archive
    directories and the category directories exist, every entry that
    existed is kept, and the observers and the stop button are as
    before (a running observer keeps the directory it was started on). *)
Theorem select_directory_prepares_the_tree chosen_dir a a' :
  truthy chosen_dir = true →
  select_directory chosen_dir a = Returned tt a' →
  base_dir a' = Some chosen_dir ∧ dir_label a' = chosen_dir ∧
  start_button a' = NORMAL ∧
  prepared chosen_dir (config a) (category_folders (config a)) (fs (world a')) ∧
  (∀ q n, fs (world a) !! q = Some n → fs (world a') !! q = Some n) ∧
  observer a' = observer a ∧ heap a' = heap a ∧ stop_button a' = stop_button a.
Proof.
  intros Hchosen. unfold select_directory. rewrite Hchosen.
  unfold mbind, M_bind, bind, modify. simpl.
  unfold prepare_directories, mbind, M_bind, bind, gets, raise. simpl.
  unfold in_world.
  match goal with |- context [prepare_directories_in ?b ?c ?l ?w] =>
    destruct (prepare_directories_in b c l w) as [[] w'|e' w'|] eqn:Hrun
  end; [|done..].
  intros [= <-]. simpl.
  apply prepare_directories_in_ok in Hrun as [Hprep Hkeep]. done.
Qed.
End select_on_memfs.

(** ** The order of the categories *)

Section order.
Context `{Utext : !Unicode}.
Implicit Types (s : state) (w : World state).

Lemma creates_inv s p k :
  creates s p k ↔
  s !! p = None ∧
  (k = p ∨ (all_char sep (dirname p) = false ∧ creates s (dirname p) k)).
Proof.
  split.
  - destruct 1; eauto.
  - intros [Hp [->|[Hsep Hk]]]; [by constructor|by apply creates_above].
Qed.

Lemma makedirs_go_extends fuel p s s' :
  makedirs_go fuel p s = (s', None) → makeable s p ∧ extended_by s p s'.
Proof.
  revert p s'. induction fuel as [|fuel IH]; intros p s' H; makedirs_cases H.
  all: try (apply IH in Hrec as [Hmk Hext]).
  all: (split; [first [by apply makeable_dir | by apply makeable_top
                      | apply makeable_under; [done|done|first [by apply makeable_dir|done]]]|]).
  all: intros k n; rewrite creates_inv.
  all: try rewrite lookup_insert_Some.
  all: try rewrite (Hext k n).
  all: try rewrite (creates_inv s (dirname p)).
  all: try (intuition (subst; congruence)).
  destruct (decide (p = k)) as [->|]; intuition (subst; congruence).
Qed.

Lemma makeable_not_file s p data mtime :
  makeable s p → s !! p ≠ Some (File data mtime).
Proof. destruct 1; congruence. Qed.

Lemma makeable_makedirs_go fuel p s :
  makeable s p → String.length p ≤ fuel →
  ∃ s', makedirs_go fuel p s = (s', None).
Proof.
  intros Hmk. revert fuel.
  induction Hmk as [p Hp|p Hp Hsep|p Hp Hsep Hhead IH]; intros fuel Hfuel.
  - eexists. by apply makedirs_go_dir.
  - destruct fuel; simpl; rewrite Hp, Hsep; eauto.
  - pose proof (dirname_shorter p Hsep) as Hshort.
    destruct fuel as [|fuel]; [lia|]. simpl. rewrite Hp, Hsep.
    destruct (s !! dirname p) as [[data mtime|]|] eqn:Hlook; [|by eauto|].
    + by apply makeable_not_file with (data := data) (mtime := mtime) in Hhead.
    + destruct (IH fuel ltac:(lia)) as [s' ->]. eauto.
Qed.

(** What [os.makedirs] does when it succeeds. *)
Lemma makedirs_success p s s' :
  makedirs p s = (s', None) ↔ makeable s p ∧ extended_by s p s'.
Proof.
  split; [apply makedirs_go_extends|]. intros [Hmk Hext].
  destruct (makeable_makedirs_go (String.length p) p s Hmk (le_n _)) as [s0 Hs0].
  unfold makedirs. rewrite Hs0. f_equal.
  apply makedirs_go_extends in Hs0 as [_ Hext0].
  apply map_eq. intros k. apply option_eq. intros n.
  by rewrite (Hext k n), (Hext0 k n).
Qed.

Lemma creates_fresh s p k : creates s p k → s !! k = None.
Proof. induction 1; auto. Qed.

Lemma creates_trans s p q k : creates s p q → creates s q k → creates s p k.
Proof. induction 1; intros Hk; [done|]. apply creates_above; auto. Qed.

Lemma creates_antimono s t p k :
  (∀ q, t !! q = None → s !! q = None) → creates t p k → creates s p k.
Proof.
  intros Hsub. induction 1; [apply creates_here|apply creates_above]; auto.
Qed.

(** A directory [os.makedirs(p)] would create is still created after an
    [os.makedirs(x)], unless that one created it. *)
Lemma creates_exchange s s1 x p k :
  extended_by s x s1 → creates s p k → creates s1 p k ∨ creates s x k.
Proof.
  intros Hext. induction 1 as [p Hp|p k Hp Hsep Hk IH].
  - destruct (s1 !! p) as [n|] eqn:Hp1; [|left; by constructor].
    apply Hext in Hp1 as [?|[_ ?]]; [congruence|by right].
  - destruct IH as [IH|IH]; [|by right].
    destruct (s1 !! p) as [n|] eqn:Hp1; [|left; by apply creates_above].
    apply Hext in Hp1 as [?|[_ Hxp]]; [congruence|]. right.
    eapply creates_trans; [done|]. by apply creates_above.
Qed.

Lemma extended_by_fresh s x s1 q : extended_by s x s1 → s1 !! q = None → s !! q = None.
Proof.
  intros Hext Hq. destruct (s !! q) as [n|] eqn:Hs; [|done].
  assert (s1 !! q = Some n) by (apply Hext; by left). congruence.
Qed.

Lemma makeable_creates s x k : makeable s x → creates s x k → makeable s k.
Proof.
  intros Hmk. induction 1 as [p Hp|p k Hp Hsep Hk IH]; [done|].
  apply IH. inversion Hmk; congruence.
Qed.

(** If [os.makedirs(p)] succeeds after a successful [os.makedirs(x)], it
    succeeds without it. *)
Lemma makeable_before s s1 x p :
  makeable s x → extended_by s x s1 → makeable s1 p → makeable s p.
Proof.
  intros Hx Hext. induction 1 as [p Hp|p Hp Hsep|p Hp Hsep Hhead IH].
  - apply Hext in Hp as [Hp|[_ Hp]]; [by apply makeable_dir|].
    by eapply makeable_creates.
  - apply makeable_top; [|done]. by eapply extended_by_fresh.
  - apply makeable_under; [|done..]. by eapply extended_by_fresh.
Qed.

(** A successful [os.makedirs(x)] puts nothing in the way of another. *)
Lemma makeable_after s s1 x p :
  extended_by s x s1 → makeable s p → makeable s1 p.
Proof.
  intros Hext. 
  assert (∀ q, s !! q = None → s1 !! q = None ∨ s1 !! q = Some Dir) as Hnew.
  { intros q Hq. destruct (s1 !! q) as [n|] eqn:Hq1; [|by left].
    apply Hext in Hq1 as [?|[-> _]]; [congruence|by right]. }
  induction 1 as [p Hp|p Hp Hsep|p Hp Hsep Hhead IH].
  - apply makeable_dir, Hext. by left.
  - destruct (Hnew p Hp); [by apply makeable_top|by apply makeable_dir].
  - destruct (Hnew p Hp); [by apply makeable_under|by apply makeable_dir].
Qed.

(** Two successful [os.makedirs] calls can be made in the other order,
    with the same result. *)
Lemma makedirs_swap x y s s1 s2 :
  makedirs x s = (s1, None) → makedirs y s1 = (s2, None) →
  ∃ s1', makedirs y s = (s1', None) ∧ makedirs x s1' = (s2, None).
Proof.
  intros [Hx Hext1]%makedirs_success [Hy Hext2]%makedirs_success.
  assert (makeable s y) as Hy0 by (by eapply makeable_before).
  destruct (makeable_makedirs_go (String.length y) y s Hy0 (le_n _)) as [s1' Hs1'].
  exists s1'. split; [done|].
  apply makedirs_success in Hs1' as [_ Hext1'].
  apply makedirs_success. split; [by eapply makeable_after|].
  intros k n. rewrite (Hext2 k n), (Hext1 k n), (Hext1' k n). split.
  - intros [[Hk|[-> Hk]]|[-> Hk]]; [by left; left| |].
    + destruct (creates_exchange s s1' y x k Hext1' Hk); [by right|by left; right].
    + left; right. split; [done|].
      eapply creates_antimono; [|done]. intros q. by apply extended_by_fresh with x.
  - intros [[Hk|[-> Hk]]|[-> Hk]]; [by left; left| |].
    + destruct (creates_exchange s s1 x y k Hext1 Hk); [by right|by left; right].
    + left; right. split; [done|].
      eapply creates_antimono; [|done]. intros q. by apply extended_by_fresh with y.
Qed.

Lemma primitive_makedirs_swap x y w w1 w2 :
  primitive (os_makedirs x) w = Returned tt w1 →
  primitive (os_makedirs y) w1 = Returned tt w2 →
  ∃ w1', primitive (os_makedirs y) w = Returned tt w1' ∧
         primitive (os_makedirs x) w1' = Returned tt w2.
Proof.
  unfold primitive. simpl.
  destruct (makedirs x (fs w)) as [s1 [e|]] eqn:Hx; [done|]. intros [= <-]. simpl.
  destruct (makedirs y s1) as [s2 [e|]] eqn:Hy; [done|]. intros [= <-].
  destruct (makedirs_swap _ _ _ _ _ Hx Hy) as (s1' & -> & Hx').
  eexists. split; [done|]. simpl. by rewrite Hx'.
Qed.

Lemma for_each_makedirs_perm (f : string → string) ps ps' :
  ps ≡ₚ ps' → ∀ w w1,
  for_each ps (λ p, primitive (os_makedirs (f p))) w = Returned tt w1 →
  for_each ps' (λ p, primitive (os_makedirs (f p))) w = Returned tt w1.
Proof.
  induction 1 as [|p ps ps' _ IH|p q ps|ps ps' ps'' _ IH1 _ IH2]; intros w w1.
  - done.
  - rewrite !for_each_cons. destruct (primitive _ w) as [[] w0| |]; try done. apply IH.
  - rewrite for_each_cons.
    destruct (primitive (os_makedirs (f q)) w) as [[] wq| |] eqn:Hq; try done.
    rewrite for_each_cons.
    destruct (primitive (os_makedirs (f p)) wq) as [[] wp| |] eqn:Hp; try done.
    destruct (primitive_makedirs_swap _ _ _ _ _ Hq Hp) as (w0 & Hp' & Hq').
    intros Hrest. by rewrite for_each_cons, Hp', for_each_cons, Hq'.
  - eauto.
Qed.

(** X17. On the in-memory filesystem, the order in which the [for] loop
    of [prepare_directories] visits the set of categories does not matter
    to a run that returns: a run in any other order returns as well, in
    the same state.  A run that raises raises in every order. *)
Theorem prepare_directories_in_any_order base cfg folder_names folder_names' w :
  folder_names ≡ₚ folder_names' →
  (∀ w1, prepare_directories_in base cfg folder_names w = Returned tt w1 →
         prepare_directories_in base cfg folder_names' w = Returned tt w1) ∧
  (∀ e w1, prepare_directories_in base cfg folder_names w = Raised e w1 →
           ∃ e' w1', prepare_directories_in base cfg folder_names' w = Raised e' w1').
Proof.
  intros Hperm.
  assert (∀ l l' w1, l ≡ₚ l' →
            prepare_directories_in base cfg l w = Returned tt w1 →
            prepare_directories_in base cfg l' w = Returned tt w1) as Hreturns.
  { intros l l' w1 Hl. unfold prepare_directories_in, mbind, M_bind, bind.
    destruct (primitive _ w) as [[] wa| |]; try done.
    destruct (primitive _ wa) as [[] wb| |]; try done.
    destruct (primitive _ wb) as [[] wc| |]; try done.
    by apply for_each_makedirs_perm. }
  split; [intros w1; by apply Hreturns|].
  intros e w1 Hraised.
  destruct (prepare_directories_in base cfg folder_names' w) as [[] w'|e' w'|] eqn:Hrun.
  - apply (Hreturns _ folder_names) in Hrun; [congruence|done].
  - eauto.
  - by apply prepare_directories_in_terminates in Hrun.
Qed.
End order.

(** ** What a dispatch logs, and the name it gives *)

Section shapes.
Context {F : Type} `{Utext : !Unicode, Ufs : !FileSystem F}.
Implicit Types (w : World F) (ext_map : gmap string string).

(** X15. Every dispatch returns and leaves a record in the log; the
    records it adds have one of five shapes: one WARNING (unsupported
    type); one ERROR of the move; the INFO of the move followed by the
    INFO of the archive, by the ERROR of the archive (a failed copy), or
    by an ERROR "Error moving file" (the date partition could not be
    created, after the file was moved). *)
Theorem dispatch_log_shapes w src_path base_dir ext_map sorted_dir_name
    archive_dir_name :
  ∃ w' records,
    move_file src_path base_dir ext_map sorted_dir_name archive_dir_name w
      = Returned tt w' ∧
    logged (trace w') = logged (trace w) ++ records ∧
    (records = [(WARNING, "Unknown / unsupported file type: " +:+ src_path)] ∨
     (∃ e, records = [(ERROR, "Error moving file: " +:+ exc_str e)]) ∨
     (∃ final_dest second,
        records = [(INFO, "Moved " +:+ src_path +:+ " to " +:+ final_dest); second] ∧
        (second = (INFO, "Archived " +:+ final_dest +:+ " to " +:+
                     join (join base_dir archive_dir_name) (strftime_Y_m_d (clock w))) ∨
         (∃ e, second = (ERROR, "Error archiving file: " +:+ exc_str e)) ∨
         (∃ e, second = (ERROR, "Error moving file: " +:+ exc_str e))))).
Proof.
  unfold move_file. destruct (ext_map !! _) as [category|]; run; cycle 1.
  { eexists _, _. split; [done|]. simpl. rewrite logged_app. split; [done|]. by left. }
  destruct (get_unique_filename_terminates (fs w)
              (join (join base_dir sorted_dir_name) category) (basename src_path))
    as [final_dest ->]. simpl.
  destruct (shutil_move _ _ (fs w)) as [s' [e|]]; simpl.
  { eexists _, _. split; [done|]. simpl. rewrite logged_app. split; [done|].
    right. left. by exists e. }
  match goal with |- context [archive_file ?a ?b ?w1] =>
    pose proof (archive_file_outcome w1 a b) as Hout
  end.
  simpl in Hout.
  destruct (os_makedirs _ s') as [s1 [e|]].
  { rewrite Hout. eexists _, _. split; [done|]. simpl.
    rewrite !logged_app. simpl. rewrite <- !app_assoc. simpl. split; [done|].
    right. right. eexists _, _. split; [done|]. right. right. by exists e. }
  destruct (shutil_copy2 _ _ s1) as [s2 [e|]]; rewrite Hout;
    (eexists _, _; split; [done|]); simpl;
    rewrite !logged_app; simpl; rewrite <- !app_assoc; simpl; (split; [done|]);
    right; right; eexists _, _; (split; [done|]).
  - right. left. by exists e.
  - by left.
Qed.

(** X16. In a dispatch the file keeps its name: the final component of
    the resolved destination is the final component of the source path,
    or that name with a space and a counter from 1 put in front of its
    extension. *)
Theorem resolved_name_shape (s : F) (dest_dir src_path dest_path : string) :
  get_unique_filename dest_dir (basename src_path) s = Some dest_path →
  basename dest_path = basename src_path ∨
  ∃ counter, 1 ≤ counter ∧
    basename dest_path =
      (splitext (basename src_path)).1 +:+ " " +:+ pretty counter
        +:+ (splitext (basename src_path)).2.
Proof.
  intros Hp.
  destruct (get_unique_filename_least_free s dest_dir (basename src_path))
    as (r & Hr & _ & Hcase).
  rewrite Hp in Hr. injection Hr as <-.
  destruct Hcase as [->|(_ & k & Hk & -> & _)].
  { left. rewrite basename_join. apply basename_nosep, basename_no_sep. }
  right. exists k. split; [done|].
  destruct (splitext_spec (basename src_path)) as [Hf Hext].
  pose proof (basename_no_sep src_path) as Hnosep.
  destruct (splitext (basename src_path)) as [b e]. simpl in *. unfold candidate.
  rewrite Hf, contains_app in Hnosep. apply orb_false_elim in Hnosep as [Hb He].
  rewrite basename_join. apply basename_nosep.
  rewrite !contains_app, Hb, He. simpl.
  by rewrite pretty_nat_contains.
Qed.
End shapes.

(** ** The further theorems at concrete inputs *)

Lemma pair_with_snd {A B} (p : A * B) (b : B) : p.2 = b → p = (p.1, b).
Proof. destruct p. by intros [= ->]. Qed.

Lemma returned_default {Σ} (o : outcome Σ unit) (d : Σ) :
  returned o = true → o = Returned tt (default d (outcome_state o)).
Proof. by destruct o as [[] σ| |]. Qed.

Lemma raised_default {Σ A} (o : outcome Σ A) (e : PyException) (d : Σ) :
  outcome_exception o = Some e → o = Raised e (default d (outcome_state o)).
Proof. destruct o; try done. by intros [= ->]. Qed.

Lemma some_default {A} (x : option A) (d : A) :
  bool_decide (is_Some x) = true → x = Some (default d x).
Proof. intros [y ->]%bool_decide_eq_true. done. Qed.

#[local] Existing Instance ascii_text.

Lemma archive_copy_failure_keeps_the_move_witness :
  ∃ w',
    move_file "/base/in/photo.jpg" "/base" (extensions Scenario.CONFIG)
      "sorted" "archive" Cases.w_occupied = Returned tt w' ∧
    logged (trace w') =
      [(INFO, "Moved /base/in/photo.jpg to /base/sorted/images/photo.jpg");
       (ERROR, "Error archiving file: [Errno 21] Is a directory: '/base/archive/2026-11-03/photo.jpg'")].
Proof.
  set (s' := (move "/base/in/photo.jpg" "/base/sorted/images/photo.jpg"
                Cases.occupied_tree).1).
  set (s1 := (makedirs "/base/archive/2026-11-03" s').1).
  set (s2 := (copy2 "/base/sorted/images/photo.jpg" "/base/archive/2026-11-03" s1).1).
  destruct (archive_copy_failure_keeps_the_move Cases.w_occupied "/base/in/photo.jpg"
              "/base" (extensions Scenario.CONFIG) "sorted" "archive" "images"
              "/base/sorted/images/photo.jpg" s' s1 s2
              (IsADirectoryError "/base/archive/2026-11-03/photo.jpg"))
    as (w' & Hrun & _ & Hlog).
  - vm_compute. reflexivity.
  - vm_compute. reflexivity.
  - apply pair_with_snd. vm_compute. reflexivity.
  - apply pair_with_snd. vm_compute. reflexivity.
  - apply pair_with_snd. vm_compute. reflexivity.
  - exists w'. split; [exact Hrun|exact Hlog].
Defined.

Lemma dispatch_moves_and_archives_witness :
  ∃ w',
    move_file "/base/in/photo.jpg" "/base" (extensions Scenario.CONFIG)
      "sorted" "archive" Scenario.w_incoming = Returned tt w' ∧
    fs w' !! "/base/sorted/images/photo.jpg" = Some (File "JFIF" 1700000000) ∧
    fs w' !! "/base/archive/2026-11-03/photo.jpg" = Some (File "JFIF" 1700000000) ∧
    ∀ d m, fs w' !! "/base/in/photo.jpg" ≠ Some (File d m).
Proof.
  destruct (dispatch_moves_and_archives Scenario.w_incoming "/base/in/photo.jpg"
              "/base" (extensions Scenario.CONFIG) "sorted" "archive" "images"
              "/base/sorted/images/photo.jpg" "JFIF" 1700000000)
    as (w' & Hrun & Hdest & Hcopy & Hgone & _).
  - unfold valid. simpl. lia.
  - vm_compute. reflexivity.
  - vm_compute. reflexivity.
  - vm_compute. reflexivity.
  - vm_compute. reflexivity.
  - vm_compute. reflexivity.
  - vm_compute. reflexivity.
  - vm_compute. discriminate.
  - vm_compute. discriminate.
  - exists w'. split_and!; [exact Hrun|exact Hdest|exact Hcopy|exact Hgone].
Defined.

Lemma dispatch_keeps_other_entries_witness :
  ∃ w',
    outcome_state
      (move_file "/base/in/photo.jpg" "/base" (extensions Scenario.CONFIG)
         "sorted" "archive" Scenario.w_incoming) = Some w' ∧
    fs w' !! "/base/in/notes.txt" = Some (File "to do" 1700000001).
Proof.
  eexists. split.
  - apply (some_default _ Scenario.w_incoming). vm_compute. reflexivity.
  - eapply (dispatch_keeps_other_entries Scenario.w_incoming _ "/base/in/photo.jpg"
              "/base" (extensions Scenario.CONFIG) "sorted" "archive"
              "/base/in/notes.txt").
    + apply (some_default _ Scenario.w_incoming). vm_compute. reflexivity.
    + vm_compute. reflexivity.
    + vm_compute. discriminate.
    + vm_compute. discriminate.
    + vm_compute. reflexivity.
Defined.



Lemma key_not_in_lower_case_is_dead_witness :
  move_file "/base/in/photo.jpg" "/base" {[ ".JPG" := "images" ]}
    "sorted" "archive" Scenario.w_incoming =
  move_file "/base/in/photo.jpg" "/base" (delete ".JPG" {[ ".JPG" := "images" ]})
    "sorted" "archive" Scenario.w_incoming.
Proof.
  apply (key_not_in_lower_case_is_dead Scenario.w_incoming "/base/in/photo.jpg"
           "/base" {[ ".JPG" := "images" ]} ".JPG" "sorted" "archive").
  vm_compute. discriminate.
Defined.

Lemma resolved_path_keeps_the_extension_witness :
  (splitext "d/report 2.txt").2 = (splitext "report.txt").2.
Proof.
  assert (get_unique_filename "d" "report.txt" Scenario.reports
          = Some "d/report 2.txt") as Hname by (vm_compute; reflexivity).
  exact (proj1 (resolved_path_keeps_the_extension Scenario.reports "d" "report.txt"
                  "d/report 2.txt" Hname)).
Defined.

Lemma resolution_counter_grows_witness :
  ∃ k', 2 < k' ∧
    get_unique_filename "d" "report.txt" Cases.more_reports
    = Some (candidate "d" (splitext "report.txt").1 (splitext "report.txt").2 k').
Proof.
  apply (resolution_counter_grows Scenario.reports Cases.more_reports "d"
           "report.txt" 2).
  - apply subseteq_dom, insert_subseteq. vm_compute. reflexivity.
  - vm_compute. reflexivity.
  - vm_compute. reflexivity.
Defined.

Lemma select_directory_prepares_the_tree_witness :
  ∃ a',
    select_directory "/base" Scenario.app0 = Returned tt a' ∧
    start_button a' = NORMAL ∧
    isdir (fs (world a')) "/base/sorted/images" = true.
Proof.
  assert (select_directory "/base" Scenario.app0 =
          Returned tt (default Scenario.app0
                         (outcome_state (select_directory "/base" Scenario.app0))))
    as Hrun by (apply returned_default; vm_compute; reflexivity).
  eexists. split; [exact Hrun|].
  destruct (select_directory_prepares_the_tree "/base" Scenario.app0 _ eq_refl Hrun)
    as (_ & _ & Hstart & (_ & _ & _ & Hcategories) & _).
  split; [exact Hstart|]. apply (Hcategories "images").
  unfold category_folders. apply elem_of_elements, elem_of_map_img.
  exists ".jpg". reflexivity.
Defined.

Lemma select_directory_failure_keeps_the_selection_witness :
  ∃ e a',
    select_directory "/base" Cases.app_blocked = Raised e a' ∧
    base_dir a' = Some "/base" ∧ start_button a' = DISABLED.
Proof.
  assert (select_directory "/base" Cases.app_blocked =
          Raised (NotADirectoryError "/base/in")
            (default Cases.app_blocked
               (outcome_state (select_directory "/base" Cases.app_blocked))))
    as Hrun by (apply raised_default; vm_compute; reflexivity).
  eexists _, _. split; [exact Hrun|].
  destruct (select_directory_failure_keeps_the_selection "/base" Cases.app_blocked
              _ _ Hrun) as (Hbase & _ & Hstart & _).
  split; [exact Hbase|exact Hstart].
Defined.


Lemma orphaned_observer_is_never_stopped_witness :
  ∃ a',
    mainloop [StopMonitoring; StartMonitoring; StopMonitoring] Cases.app_leaked
      = Some a' ∧
    0 ∈ running a' ∧ observer a' ≠ Some 0.
Proof.
  eexists. split.
  - apply (some_default _ Scenario.app0). vm_compute. reflexivity.
  - apply (orphaned_observer_is_never_stopped
             [StopMonitoring; StartMonitoring; StopMonitoring] Cases.app_leaked _ 0).
    + apply elem_of_running. vm_compute. reflexivity.
    + vm_compute. discriminate.
    + apply (some_default _ Scenario.app0). vm_compute. reflexivity.
Defined.


Lemma failed_start_leaves_a_dead_observer_witness :
  ∃ e a1 a2,
    start_monitoring Cases.app_unwatchable = Raised e a1 ∧
    observer a1 = Some 0 ∧
    stop_monitoring a1 =
      Raised (RuntimeError "cannot join thread before it is started") a2 ∧
    observer a2 = Some 0.
Proof.
  destruct (failed_start_leaves_a_dead_observer Cases.app_unwatchable
              (mk_exception "FileNotFoundError" "[Errno 2] No such file or directory"))
    as (a1 & a2 & Hstart & Hobs & _ & _ & _ & _ & _ & Hstop & Hobs2 & _).
  - vm_compute. reflexivity.
  - vm_compute. reflexivity.
  - eexists _, a1, a2. split_and!; [exact Hstart|exact Hobs|exact Hstop|].
    rewrite Hobs2. exact Hobs.
Defined.

Lemma resolved_name_shape_witness :
  basename "d/report 2.txt" = basename "in/report.txt" ∨
  ∃ counter, 1 ≤ counter ∧
    basename "d/report 2.txt" =
      (splitext (basename "in/report.txt")).1 +:+ " " +:+ pretty counter
        +:+ (splitext (basename "in/report.txt")).2.
Proof.
  assert (get_unique_filename "d" (basename "in/report.txt") Scenario.reports
          = Some "d/report 2.txt") as Hname by (vm_compute; reflexivity).
  exact (resolved_name_shape Scenario.reports "d" "in/report.txt" "d/report 2.txt"
           Hname).
Defined.

Lemma prepare_directories_in_any_order_witness :
  ∃ w1,
    prepare_directories_in "/base" Scenario.CONFIG ["images"; "documents"]
      (mk_world (∅ : state) Scenario.today []) = Returned tt w1 ∧
    prepare_directories_in "/base" Scenario.CONFIG ["documents"; "images"]
      (mk_world (∅ : state) Scenario.today []) = Returned tt w1.
Proof.
  eexists. split.
  - apply (returned_default _ (mk_world (∅ : state) Scenario.today [])).
    vm_compute. reflexivity.
  - apply (prepare_directories_in_any_order "/base" Scenario.CONFIG
             ["images"; "documents"] ["documents"; "images"]
             (mk_world (∅ : state) Scenario.today [])).
    + apply perm_swap.
    + apply (returned_default _ (mk_world (∅ : state) Scenario.today [])).
      vm_compute. reflexivity.
Defined.

